(** * IntuPlayer: settings persistence, directory scan and playlist cursor

    A shallow embedding of [Intu_Player2.2.py] (class [AudioPlayer]).
    The Qt widgets are left out; what is kept is the state the event
    handlers read and write: the persisted attributes, the playlist and
    its cursor, the media player's source/position/state and the content
    of [settings.json].

    What the program takes from outside (the [json] module, [os.path],
    [pypinyin], the directory enumeration of [QDir]) is gathered in the
    class [Toolkit] and the record [FileSystem]; the handlers are written
    over them.  A small reference instance is given further down, to run
    the handlers on concrete inputs. *)

From Stdlib Require Import ZArith List String Ascii Bool Lia Permutation Sorted.
From Stdlib Require Import DecimalString.
Import ListNotations.

Set Warnings "-register-all".

Open Scope string_scope.
Open Scope list_scope.
Open Scope Z_scope.

(** ** Python values and exceptions *)

(** The exceptions that the modelled code can meet. *)
Inductive exn : Type :=
| ValueError
| IndexError
| AttributeError
| JSONDecodeError
| UnicodeDecodeError.

(** The values [json.load] produces: [None], [bool], [int], [str], [list]
    and [dict] with string keys.  A [dict] is kept as the list of its items
    (keys pairwise distinct when it comes from Python).  Numbers are kept as
    integers; no handler looks at a number's value. *)
Inductive json : Type :=
| JNull
| JBool (b : bool)
| JNum (n : Z)
| JStr (s : string)
| JArr (l : list json)
| JObj (d : list (string * json)).

(** Python truthiness, as used by [if geometry_base64:]. *)
Definition truthy (v : json) : bool :=
  match v with
  | JNull => false
  | JBool b => b
  | JNum n => negb (n =? 0)
  | JStr s => negb (s =? "")%string
  | JArr l => match l with [] => false | _ => true end
  | JObj d => match d with [] => false | _ => true end
  end.

(** [d.get(key, default)] on the items of a dict. *)
Fixpoint dict_get (d : list (string * json)) (key : string) (default : json) : json :=
  match d with
  | [] => default
  | (k, v) :: d' => if (k =? key)%string then v else dict_get d' key default
  end.

(** ** Handlers as state transformers that may raise *)

Inductive result (S A : Type) : Type :=
| Return (a : A) (s : S)
| Raise (e : exn) (s : S).
Arguments Return {S A} a s.
Arguments Raise {S A} e s.

Definition M (S A : Type) : Type := S -> result S A.

Definition ret {S A} (a : A) : M S A := fun s => Return a s.

Definition bind {S A B} (m : M S A) (f : A -> M S B) : M S B :=
  fun s => match m s with
           | Return a s' => f a s'
           | Raise e s' => Raise e s'
           end.

Definition raise {S A} (e : exn) : M S A := fun s => Raise e s.

Definition get {S} : M S S := fun s => Return s s.

Definition modify {S} (f : S -> S) : M S unit := fun s => Return tt (f s).

(** [try: body except E: handler]; [caught] tells which exceptions [E]
    covers. *)
Definition try_except {S} (body : M S unit) (caught : exn -> bool)
    (handler : M S unit) : M S unit :=
  fun s => match body s with
           | Return a s' => Return a s'
           | Raise e s' => if caught e then handler s' else Raise e s'
           end.

(** [try: body except E: pass] *)
Definition try_except_pass {S} (body : M S unit) (caught : exn -> bool) : M S unit :=
  try_except body caught (ret tt).

Notation "x <- m ;; k" := (bind m (fun x => k))
  (at level 61, m at next level, right associativity).
Notation "m ;;; k" := (bind m (fun _ => k))
  (at level 61, right associativity).

Definition exn_eqb (a b : exn) : bool :=
  match a, b with
  | ValueError, ValueError
  | IndexError, IndexError
  | AttributeError, AttributeError
  | JSONDecodeError, JSONDecodeError
  | UnicodeDecodeError, UnicodeDecodeError => true
  | _, _ => false
  end.

(** ** The outside world *)

(** Library functions the program calls.  [json_load] answers either the
    decoded value or the exception the decoder raised. *)
Class Toolkit : Type := {
  json_dump : json -> string;
  json_load : string -> json + exn;
  lazy_pinyin : string -> list string;
  dirname : string -> string;
  basename : string -> string;
  splitext : string -> string * string;
  abspath : string -> string;
  replace_sep : string -> string;
  toBase64 : string -> string;
  fromBase64 : string -> string
}.

(** What the file system answers at the time a handler runs. *)
Record FileSystem : Type := {
  isdir : string -> bool;
  path_exists : string -> bool;
  entryInfoList : string -> list string -> list string
}.

(** ** SettingsStore: [save_settings] and [load_settings] *)

Module SettingsStore.

(** The five persisted attributes of [self].  After [load_settings] they
    hold whatever the file held, hence Python values. *)
Record Settings : Type := mkSettings {
  last_dir : json;
  last_device_desc : json;
  playlist_memory : json;
  current_file_path : json;
  window_geometry : option string
}.

(** The values [__init__] assigns before it calls [load_settings]. *)
Definition defaults : Settings :=
  mkSettings (JStr "") (JStr "") (JArr []) JNull None.

Section Store.
Context {T : Toolkit}.

(** The dict built in [save_settings]; [geometry] is [self.saveGeometry()]. *)
Definition settings_dict (s : Settings) (geometry : string) : json :=
  JObj [ ("last_dir", last_dir s);
         ("last_device_desc", last_device_desc s);
         ("playlist_memory", playlist_memory s);
         ("current_file_path", current_file_path s);
         ("window_geometry", JStr (toBase64 geometry)) ].

(** How far a [save_settings] call got.  [open(SETTINGS_FILE, "w")]
    creates or truncates the file; [json.dump] then writes into it. *)
Inductive progress : Type :=
| NotOpened
| Written (n : nat)
| Completed.

(** Content of [settings.json] ([None]: no such file) once a save has
    reached [p], from the content [file] before the call. *)
Definition save_upto (p : progress) (s : Settings) (geometry : string)
    (file : option string) : option string :=
  match p with
  | NotOpened => file
  | Written n => Some (substring 0 n (json_dump (settings_dict s geometry)))
  | Completed => Some (json_dump (settings_dict s geometry))
  end.

Definition save_settings (s : Settings) (geometry : string)
    (file : option string) : option string :=
  save_upto Completed s geometry file.

(** An interrupted save: the call started and did not complete. *)
Definition interrupted (p : progress) : bool :=
  match p with
  | Completed => false
  | _ => true
  end.

(** The body of the [with] block once [json.load] has answered [data]. *)
Definition assign_from (data : json) : M Settings unit :=
  match data with
  | JObj d =>
      modify (fun s => mkSettings (dict_get d "last_dir" (JStr ""))
                         (last_device_desc s) (playlist_memory s)
                         (current_file_path s) (window_geometry s)) ;;;
      modify (fun s => mkSettings (last_dir s)
                         (dict_get d "last_device_desc" (JStr ""))
                         (playlist_memory s)
                         (current_file_path s) (window_geometry s)) ;;;
      modify (fun s => mkSettings (last_dir s) (last_device_desc s)
                         (dict_get d "playlist_memory" (JArr []))
                         (current_file_path s) (window_geometry s)) ;;;
      modify (fun s => mkSettings (last_dir s) (last_device_desc s)
                         (playlist_memory s)
                         (dict_get d "current_file_path" JNull)
                         (window_geometry s)) ;;;
      let geometry_base64 := dict_get d "window_geometry" JNull in
      if truthy geometry_base64 then
        match geometry_base64 with
        | JStr b64 =>
            modify (fun s => mkSettings (last_dir s) (last_device_desc s)
                               (playlist_memory s) (current_file_path s)
                               (Some (fromBase64 b64)))
        | _ => raise AttributeError
        end
      else ret tt
  | _ => raise AttributeError
  end.

(** [load_settings]: [file] is the content of [settings.json], [None] when
    [os.path.exists] answers false. *)
Definition load_settings (file : option string) : M Settings unit :=
  match file with
  | None => ret tt
  | Some text =>
      try_except_pass
        (match json_load text with
         | inl data => assign_from data
         | inr e => raise e
         end)
        (fun e => exn_eqb e JSONDecodeError)
  end.

(** [load()] of the spec: a fresh object's defaults, then [load_settings]. *)
Definition load (file : option string) : result Settings unit :=
  load_settings file defaults.

End Store.
End SettingsStore.

(** ** Python lists of paths *)

(** [l.index(x)]: the first position of [x], [None] for [ValueError]. *)
Fixpoint list_index (x : string) (l : list string) : option Z :=
  match l with
  | [] => None
  | y :: l' =>
      if (y =? x)%string then Some 0
      else match list_index x l' with
           | Some i => Some (i + 1)
           | None => None
           end
  end.

(** [x in l] *)
Definition list_in (x : string) (l : list string) : bool :=
  existsb (fun y => (y =? x)%string) l.

(** [l[i]], negative indices counting from the end, [None] for
    [IndexError]. *)
Definition getitem (l : list string) (i : Z) : option string :=
  let n := Z.of_nat (List.length l) in
  if (0 <=? i) && (i <? n) then nth_error l (Z.to_nat i)
  else if (- n <=? i) && (i <? 0) then nth_error l (Z.to_nat (n + i))
  else None.

(** ** [list.sort(key=...)]

    Python's sort is stable and compares the keys only, with [<] on [str]
    (code points, which on UTF-8 bytes is the byte order of
    [String.compare]).  Its result is the one of any stable sort; it is
    written here as an insertion from the right that puts an element before
    the first one whose key is not smaller. *)
Section Sort.
Variable key : string -> string.

Fixpoint insert_by_key (x : string) (l : list string) : list string :=
  match l with
  | [] => [x]
  | y :: l' =>
      if (key x <=? key y)%string then x :: y :: l'
      else y :: insert_by_key x l'
  end.

Fixpoint sort_by_key (l : list string) : list string :=
  match l with
  | [] => []
  | x :: l' => insert_by_key x (sort_by_key l')
  end.

(** Order on keys, and the order the spec describes: keys first, the
    original names on equal keys. *)
Definition key_le (x y : string) : Prop := (key x <=? key y)%string = true.

Definition key_then_name_le (x y : string) : Prop :=
  (key x <? key y)%string = true \/
  (key x = key y /\ (x <=? y)%string = true).

(** The order of the names themselves. *)
Definition name_le (x y : string) : Prop := (x <=? y)%string = true.

(** What the sort takes from the list it is given: the entries that share a
    key come in the order of their names.  [QDir.entryInfoList], called
    without a sort flag as here, enumerates by name. *)
Definition ties_in_name_order (l : list string) : Prop :=
  forall k, StronglySorted name_le (filter (fun p => (key p =? k)%string) l).

End Sort.

(** ** The playback engine

    [QMediaPlayer] as the handlers see it: a source, a position in
    milliseconds and a playback state.  Setting a source or stopping puts
    the position back to 0 and the state to stopped. *)
Inductive PlaybackState : Type :=
| StoppedState
| PlayingState
| PausedState.

Record QMediaPlayer : Type := mkPlayer {
  source : option string;
  position : Z;
  playbackState : PlaybackState
}.

Definition setSource (url : string) (p : QMediaPlayer) : QMediaPlayer :=
  mkPlayer (Some url) 0 StoppedState.

Definition setPosition (pos : Z) (p : QMediaPlayer) : QMediaPlayer :=
  mkPlayer (source p) pos (playbackState p).

Definition qplay (p : QMediaPlayer) : QMediaPlayer :=
  match source p with
  | Some _ => mkPlayer (source p) (position p) PlayingState
  | None => p
  end.

Definition qpause (p : QMediaPlayer) : QMediaPlayer :=
  match source p with
  | Some _ => mkPlayer (source p) (position p) PausedState
  | None => p
  end.

Definition qstop (p : QMediaPlayer) : QMediaPlayer :=
  mkPlayer (source p) 0 StoppedState.

Definition is_playing (p : QMediaPlayer) : bool :=
  match playbackState p with
  | PlayingState => true
  | _ => false
  end.

Definition is_stopped (p : QMediaPlayer) : bool :=
  match playbackState p with
  | StoppedState => true
  | _ => false
  end.

(** ** The state of [AudioPlayer]

    Attributes of [self] with the types the program gives them, the rows of
    the playlist dialog (text and data of each item), what
    [saveGeometry()] answers, and the content of [settings.json]. *)
#[projections(primitive)]
Record AudioPlayer : Type := mkAudioPlayer {
  last_dir : string;
  last_device_desc : string;
  playlist_memory : list string;
  current_file_path : option string;
  playlist : list string;
  current_index : Z;
  current_image_path : option string;
  player : QMediaPlayer;
  audio_devices : list string;
  audio_output : option string;
  widget_items : list (string * string);
  current_row : Z;
  geometry : string;
  settings_file : option string
}.

Definition set_last_dir (v : string) (st : AudioPlayer) : AudioPlayer :=
  mkAudioPlayer
    v (last_device_desc st) (playlist_memory st) (current_file_path st)
    (playlist st) (current_index st) (current_image_path st) (player st)
    (audio_devices st) (audio_output st) (widget_items st) (current_row st)
    (geometry st) (settings_file st).

Definition set_last_device_desc (v : string) (st : AudioPlayer) : AudioPlayer :=
  mkAudioPlayer
    (last_dir st) v (playlist_memory st) (current_file_path st)
    (playlist st) (current_index st) (current_image_path st) (player st)
    (audio_devices st) (audio_output st) (widget_items st) (current_row st)
    (geometry st) (settings_file st).

Definition set_playlist_memory (v : list string) (st : AudioPlayer) : AudioPlayer :=
  mkAudioPlayer
    (last_dir st) (last_device_desc st) v (current_file_path st)
    (playlist st) (current_index st) (current_image_path st) (player st)
    (audio_devices st) (audio_output st) (widget_items st) (current_row st)
    (geometry st) (settings_file st).

Definition set_current_file_path (v : option string) (st : AudioPlayer) : AudioPlayer :=
  mkAudioPlayer
    (last_dir st) (last_device_desc st) (playlist_memory st) v
    (playlist st) (current_index st) (current_image_path st) (player st)
    (audio_devices st) (audio_output st) (widget_items st) (current_row st)
    (geometry st) (settings_file st).

Definition set_playlist (v : list string) (st : AudioPlayer) : AudioPlayer :=
  mkAudioPlayer
    (last_dir st) (last_device_desc st) (playlist_memory st) (current_file_path st)
    v (current_index st) (current_image_path st) (player st)
    (audio_devices st) (audio_output st) (widget_items st) (current_row st)
    (geometry st) (settings_file st).

Definition set_current_index (v : Z) (st : AudioPlayer) : AudioPlayer :=
  mkAudioPlayer
    (last_dir st) (last_device_desc st) (playlist_memory st) (current_file_path st)
    (playlist st) v (current_image_path st) (player st)
    (audio_devices st) (audio_output st) (widget_items st) (current_row st)
    (geometry st) (settings_file st).

Definition set_current_image_path (v : option string) (st : AudioPlayer) : AudioPlayer :=
  mkAudioPlayer
    (last_dir st) (last_device_desc st) (playlist_memory st) (current_file_path st)
    (playlist st) (current_index st) v (player st)
    (audio_devices st) (audio_output st) (widget_items st) (current_row st)
    (geometry st) (settings_file st).

Definition set_player (v : QMediaPlayer) (st : AudioPlayer) : AudioPlayer :=
  mkAudioPlayer
    (last_dir st) (last_device_desc st) (playlist_memory st) (current_file_path st)
    (playlist st) (current_index st) (current_image_path st) v
    (audio_devices st) (audio_output st) (widget_items st) (current_row st)
    (geometry st) (settings_file st).

Definition set_audio_output (v : option string) (st : AudioPlayer) : AudioPlayer :=
  mkAudioPlayer
    (last_dir st) (last_device_desc st) (playlist_memory st) (current_file_path st)
    (playlist st) (current_index st) (current_image_path st) (player st)
    (audio_devices st) v (widget_items st) (current_row st)
    (geometry st) (settings_file st).

Definition set_widget_items (v : list (string * string)) (st : AudioPlayer) : AudioPlayer :=
  mkAudioPlayer
    (last_dir st) (last_device_desc st) (playlist_memory st) (current_file_path st)
    (playlist st) (current_index st) (current_image_path st) (player st)
    (audio_devices st) (audio_output st) v (current_row st)
    (geometry st) (settings_file st).

Definition set_current_row (v : Z) (st : AudioPlayer) : AudioPlayer :=
  mkAudioPlayer
    (last_dir st) (last_device_desc st) (playlist_memory st) (current_file_path st)
    (playlist st) (current_index st) (current_image_path st) (player st)
    (audio_devices st) (audio_output st) (widget_items st) v
    (geometry st) (settings_file st).

Definition set_settings_file (v : option string) (st : AudioPlayer) : AudioPlayer :=
  mkAudioPlayer
    (last_dir st) (last_device_desc st) (playlist_memory st) (current_file_path st)
    (playlist st) (current_index st) (current_image_path st) (player st)
    (audio_devices st) (audio_output st) (widget_items st) (current_row st)
    (geometry st) v.

(** ** The handlers of [AudioPlayer] *)

Section Handlers.
Context {T : Toolkit}.

Definition AUDIO_EXTENSIONS : list string :=
  [".mp3"; ".wav"; ".flac"; ".ogg"; ".m4a"].

Definition IMAGE_EXTENSIONS : list string :=
  [".jpg"; ".jpeg"; ".png"; ".bmp"; ".gif"].

(** The persisted attributes as the Python values [save_settings] puts in
    its dict. *)
Definition settings_of (st : AudioPlayer) : SettingsStore.Settings :=
  SettingsStore.mkSettings
    (JStr (last_dir st))
    (JStr (last_device_desc st))
    (JArr (map JStr (playlist_memory st)))
    (match current_file_path st with Some p => JStr p | None => JNull end)
    None.

Definition save_settings : M AudioPlayer unit :=
  modify (fun st =>
    set_settings_file
      (SettingsStore.save_settings (settings_of st) (geometry st) (settings_file st))
      st).

(** The [for ext in [...]] loop of [load_image], with its [break]. *)
Fixpoint load_image_loop (fs : FileSystem) (base_path : string)
    (exts : list string) : M AudioPlayer unit :=
  match exts with
  | [] => ret tt
  | ext :: rest =>
      let image_path := (base_path ++ ext)%string in
      if path_exists fs image_path
      then modify (set_current_image_path (Some image_path))
      else load_image_loop fs base_path rest
  end.

Definition load_image (fs : FileSystem) (audio_path : string) : M AudioPlayer unit :=
  let base_path := fst (splitext audio_path) in
  modify (set_current_image_path None) ;;;
  load_image_loop fs base_path IMAGE_EXTENSIONS.

Definition play_file (fs : FileSystem) (file_path : string) : M AudioPlayer unit :=
  modify (set_current_file_path (Some file_path)) ;;;
  modify (fun st => set_player (qstop (player st)) st) ;;;
  modify (fun st => set_player (setSource file_path (player st)) st) ;;;
  load_image fs file_path ;;;
  modify (fun st => set_player (qplay (player st)) st) ;;;
  save_settings.

(** The key of [files.sort]. *)
Definition sort_key (path : string) : string :=
  String.concat "" (lazy_pinyin (basename path)).

(** The sorted list of files that [load_directory_to_playlist] computes. *)
Definition scan (fs : FileSystem) (directory : string) : list string :=
  let name_filters := map (fun ext => ("*" ++ ext)%string) AUDIO_EXTENSIONS in
  let files := map replace_sep (entryInfoList fs directory name_filters) in
  sort_by_key sort_key files.

Definition load_directory_to_playlist (fs : FileSystem) (directory : string)
    : M AudioPlayer unit :=
  modify (set_playlist []) ;;;
  modify (set_widget_items []) ;;;
  let files := scan fs directory in
  modify (set_playlist files) ;;;
  modify (set_playlist_memory files) ;;;
  modify (set_widget_items (map (fun f => (basename f, f)) files)).

(** [self.playlist.index(x)] and [self.playlist[i]] *)
Definition playlist_index (x : string) : M AudioPlayer Z :=
  st <- get ;;
  match list_index x (playlist st) with
  | Some i => ret i
  | None => raise ValueError
  end.

Definition playlist_getitem (i : Z) : M AudioPlayer string :=
  st <- get ;;
  match getitem (playlist st) i with
  | Some p => ret p
  | None => raise IndexError
  end.

Definition is_ValueError (e : exn) : bool := exn_eqb e ValueError.

Definition playlist_file_double_clicked (fs : FileSystem) (file_path : string)
    : M AudioPlayer unit :=
  try_except_pass
    (index <- playlist_index file_path ;;
     st <- get ;;
     if (0 <=? index) && (index <? Z.of_nat (List.length (playlist st))) then
       modify (set_current_index index) ;;;
       p <- playlist_getitem index ;;
       play_file fs p ;;;
       modify (fun st => set_current_row (current_index st) st)
     else ret tt)
    is_ValueError.

Definition play_pause : M AudioPlayer unit :=
  modify (fun st =>
    if is_playing (player st)
    then set_player (qpause (player st)) st
    else set_player (qplay (player st)) st).

Definition stop : M AudioPlayer unit :=
  modify (fun st => set_player (qstop (player st)) st).

Definition play_previous (fs : FileSystem) : M AudioPlayer unit :=
  st <- get ;;
  match playlist st with
  | [] => ret tt
  | _ :: _ =>
      modify (fun st =>
        set_current_index
          ((current_index st - 1) mod Z.of_nat (List.length (playlist st))) st) ;;;
      st <- get ;;
      p <- playlist_getitem (current_index st) ;;
      play_file fs p ;;;
      modify (fun st => set_current_row (current_index st) st)
  end.

Definition play_next (fs : FileSystem) : M AudioPlayer unit :=
  st <- get ;;
  match playlist st with
  | [] => ret tt
  | _ :: _ =>
      modify (fun st =>
        set_current_index
          ((current_index st + 1) mod Z.of_nat (List.length (playlist st))) st) ;;;
      st <- get ;;
      p <- playlist_getitem (current_index st) ;;
      play_file fs p ;;;
      modify (fun st => set_current_row (current_index st) st)
  end.

(** [self.current_file_path in self.playlist] *)
Definition current_in_playlist (st : AudioPlayer) : bool :=
  match current_file_path st with
  | Some p => list_in p (playlist st)
  | None => false
  end.

Definition nonempty (s : string) : bool := negb (s =? "")%string.

Definition reload_current_directory_playlist (fs : FileSystem) : M AudioPlayer unit :=
  st <- get ;;
  let current_dir :=
    match current_file_path st with
    | Some p => if nonempty p then Some (dirname p)
                else if nonempty (last_dir st) then Some (last_dir st) else None
    | None => if nonempty (last_dir st) then Some (last_dir st) else None
    end in
  (match current_dir with
   | Some d =>
       if nonempty d && isdir fs d then
         let was_playing := is_playing (player st) in
         let current_pos := if was_playing then position (player st) else 0 in
         load_directory_to_playlist fs d ;;;
         st <- get ;;
         if current_in_playlist st then
           match current_file_path st with
           | Some p =>
               index <- playlist_index p ;;
               modify (set_current_index index) ;;;
               modify (fun st => set_current_row (current_index st) st) ;;;
               modify (fun st => set_player (setSource p (player st)) st) ;;;
               modify (fun st => set_player (setPosition current_pos (player st)) st) ;;;
               if was_playing
               then modify (fun st => set_player (qplay (player st)) st)
               else ret tt
           | None => ret tt
           end
         else
           stop ;;;
           modify (set_current_index (-1)) ;;;
           modify (set_current_file_path None)
       else ret tt
   | None => ret tt
   end) ;;;
  save_settings.

(** [open_file]; [file_path] is what the file dialog answered, empty when
    it was cancelled. *)
Definition open_file (fs : FileSystem) (file_path : string) : M AudioPlayer unit :=
  if nonempty file_path then
    modify (set_last_dir (dirname file_path)) ;;;
    let normalized := replace_sep (abspath file_path) in
    load_directory_to_playlist fs (dirname normalized) ;;;
    play_file fs normalized ;;;
    try_except
      (index <- playlist_index normalized ;;
       modify (set_current_index index) ;;;
       modify (fun st => set_current_row (current_index st) st))
      is_ValueError
      (modify (set_current_index (-1))) ;;;
    save_settings
  else ret tt.

Definition handle_media_status_change (fs : FileSystem) (end_of_media : bool)
    : M AudioPlayer unit :=
  if end_of_media then play_next fs else ret tt.

Definition change_audio_device (index : Z) : M AudioPlayer unit :=
  st <- get ;;
  if (0 <=? index) && (index <? Z.of_nat (List.length (audio_devices st))) then
    match getitem (audio_devices st) index with
    | Some device =>
        modify (set_last_device_desc device) ;;;
        modify (set_audio_output (Some device)) ;;;
        st <- get ;;
        (match current_file_path st with
         | Some p =>
             if negb (is_stopped (player st)) && nonempty p then
               let pos := position (player st) in
               modify (fun st => set_player (setSource p (player st)) st) ;;;
               modify (fun st => set_player (setPosition pos (player st)) st) ;;;
               modify (fun st => set_player (qplay (player st)) st)
             else ret tt
         | None => ret tt
         end) ;;;
        save_settings
    | None => raise IndexError
    end
  else ret tt.

Definition set_position (pos : Z) : M AudioPlayer unit :=
  modify (fun st => set_player (setPosition pos (player st)) st).

Definition closeEvent : M AudioPlayer unit := save_settings.

(** [PlaylistDialog.item_double_clicked] *)
Definition item_double_clicked (fs : FileSystem) (file_path : string)
    : M AudioPlayer unit :=
  if nonempty file_path then playlist_file_double_clicked fs file_path else ret tt.

(** The end of [__init__], after [load_settings] has filled the four
    attributes: the remembered playlist is taken over and, when the
    remembered file is in it, played.  The attributes are taken with the
    types the program itself writes to the settings file (strings, a list
    of strings, a string or [None]); a settings file that holds values of
    other types is outside this function. *)
Definition init (fs : FileSystem) (last_dir0 last_device_desc0 : string)
    (playlist_memory0 : list string) (current_file_path0 : option string)
    (devices : list string) (geometry0 : string) (file : option string)
    : result AudioPlayer unit :=
  let output :=
    match devices with
    | [] => None
    | d0 :: _ =>
        match find (fun d => (d =? last_device_desc0)%string) devices with
        | Some d => Some d
        | None => Some d0
        end
    end in
  let st0 :=
    mkAudioPlayer last_dir0 last_device_desc0 playlist_memory0 current_file_path0
      [] (-1) None (mkPlayer None 0 StoppedState)
      devices output [] (-1) geometry0 file in
  (match playlist_memory0 with
   | [] => ret tt
   | _ :: _ =>
       modify (fun st => set_playlist (playlist_memory st) st) ;;;
       modify (set_widget_items []) ;;;
       modify (fun st => set_widget_items (map (fun f => (basename f, f)) (playlist st)) st) ;;;
       st <- get ;;
       if current_in_playlist st then
         match current_file_path st with
         | Some p =>
             index <- playlist_index p ;;
             modify (set_current_index index) ;;;
             playlist_file_double_clicked fs p ;;;
             modify (fun st => set_current_row (current_index st) st)
         | None => ret tt
         end
       else ret tt
   end) st0.

(** The events the window reacts to, each with what the outside answers. *)
Inductive event : Type :=
| OpenFile (file_path : string)
| Refresh
| ItemDoubleClicked (file_path : string)
| Previous
| Next
| PlayPause
| Stop
| SliderMoved (pos : Z)
| MediaStatusChanged (end_of_media : bool)
| DeviceChanged (index : Z)
| Close.

Definition handle (fs : FileSystem) (ev : event) : M AudioPlayer unit :=
  match ev with
  | OpenFile file_path => open_file fs file_path
  | Refresh => reload_current_directory_playlist fs
  | ItemDoubleClicked file_path => item_double_clicked fs file_path
  | Previous => play_previous fs
  | Next => play_next fs
  | PlayPause => play_pause
  | Stop => stop
  | SliderMoved pos => set_position pos
  | MediaStatusChanged end_of_media => handle_media_status_change fs end_of_media
  | DeviceChanged index => change_audio_device index
  | Close => closeEvent
  end.

(** States the program can be in: after [__init__], and after any handler
    has returned. *)
Inductive reachable : AudioPlayer -> Prop :=
| reachable_init fs ld ldd pm cfp devices geom file st :
    init fs ld ldd pm cfp devices geom file = Return tt st ->
    reachable st
| reachable_step fs ev st st' :
    reachable st ->
    handle fs ev st = Return tt st' ->
    reachable st'.

(** [n] calls of a handler in a row. *)
Fixpoint repeat_call (n : nat) (m : M AudioPlayer unit) : M AudioPlayer unit :=
  match n with
  | O => ret tt
  | S n' => m ;;; repeat_call n' m
  end.

End Handlers.

(** ** Reading the state

    What the statements below say about a state, written once. *)

(** The first of [base_path + ext] that exists, in the order of [exts]. *)
Fixpoint first_existing (fs : FileSystem) (base_path : string)
    (exts : list string) : option string :=
  match exts with
  | [] => None
  | ext :: rest =>
      if path_exists fs (base_path ++ ext)%string
      then Some (base_path ++ ext)%string
      else first_existing fs base_path rest
  end.

(** The cursor invariant of the spec: the cursor is -1 exactly when the
    playlist is empty or holds no entry equal to the current file path, and
    otherwise it is a valid index whose entry is the current file path. *)
Definition cursor_invariant (st : AudioPlayer) : Prop :=
  (current_index st = -1 <->
     (playlist st = [] \/
      forall p, In p (playlist st) -> current_file_path st <> Some p)) /\
  (current_index st <> -1 ->
     0 <= current_index st < Z.of_nat (List.length (playlist st)) /\
     exists p, nth_error (playlist st) (Z.to_nat (current_index st)) = Some p /\
               current_file_path st = Some p).

(** Three ways a handler can leave the cursor: as it was, on an entry that
    is the current file, or on none while the current file is not listed. *)
Definition cursor_kept (st st' : AudioPlayer) : Prop :=
  playlist st' = playlist st /\
  current_index st' = current_index st /\
  current_file_path st' = current_file_path st.

Definition cursor_on_current (st : AudioPlayer) : Prop :=
  0 <= current_index st < Z.of_nat (List.length (playlist st)) /\
  exists p, nth_error (playlist st) (Z.to_nat (current_index st)) = Some p /\
            current_file_path st = Some p.

Definition cursor_off (st : AudioPlayer) : Prop :=
  current_index st = -1 /\
  forall p, In p (playlist st) -> current_file_path st <> Some p.

(** ** The handlers' results in closed form

    The state each handler returns, written without the monad.  The
    statements further down speak of the handlers themselves; these forms
    serve their proofs. *)
Section ClosedForms.
Context {T : Toolkit}.

(** The text a [save_settings] of [st] writes. *)
Definition saved_text (st : AudioPlayer) : string :=
  json_dump (SettingsStore.settings_dict (settings_of st) (geometry st)).

Definition saved (st : AudioPlayer) : AudioPlayer :=
  set_settings_file (Some (saved_text st)) st.

Definition after_play_file (fs : FileSystem) (file_path : string)
    (st : AudioPlayer) : AudioPlayer :=
  saved
    (set_player (mkPlayer (Some file_path) 0 PlayingState)
       (set_current_image_path
          (first_existing fs (fst (splitext file_path)) IMAGE_EXTENSIONS)
          (set_current_file_path (Some file_path) st))).

(** Cursor on [i], entry [p] played, row [i] shown. *)
Definition moved_to (fs : FileSystem) (i : Z) (p : string)
    (st : AudioPlayer) : AudioPlayer :=
  set_current_row i (after_play_file fs p (set_current_index i st)).

Definition after_load_directory (fs : FileSystem) (directory : string)
    (st : AudioPlayer) : AudioPlayer :=
  set_widget_items (map (fun f => (basename f, f)) (scan fs directory))
    (set_playlist_memory (scan fs directory)
       (set_playlist (scan fs directory) st)).

Definition after_open_file (fs : FileSystem) (file_path : string)
    (st : AudioPlayer) : AudioPlayer :=
  let normalized := replace_sep (abspath file_path) in
  let st1 := after_load_directory fs (dirname normalized)
               (set_last_dir (dirname file_path) st) in
  let st2 := after_play_file fs normalized st1 in
  saved (match list_index normalized (scan fs (dirname normalized)) with
         | Some i => set_current_row i (set_current_index i st2)
         | None => set_current_index (-1) st2
         end).

(** The directory [reload_current_directory_playlist] looks at. *)
Definition reload_directory (st : AudioPlayer) : option string :=
  match current_file_path st with
  | Some p => if nonempty p then Some (dirname p)
              else if nonempty (last_dir st) then Some (last_dir st) else None
  | None => if nonempty (last_dir st) then Some (last_dir st) else None
  end.

Definition deselected (st : AudioPlayer) : AudioPlayer :=
  set_current_file_path None
    (set_current_index (-1) (set_player (qstop (player st)) st)).

Definition after_reload (fs : FileSystem) (st : AudioPlayer) : AudioPlayer :=
  saved
    (match reload_directory st with
     | Some d =>
         if nonempty d && isdir fs d then
           let st1 := after_load_directory fs d st in
           match current_file_path st with
           | Some p =>
               match list_index p (scan fs d) with
               | Some i =>
                   set_player
                     (if is_playing (player st)
                      then mkPlayer (Some p) (position (player st)) PlayingState
                      else mkPlayer (Some p) 0 StoppedState)
                     (set_current_row i (set_current_index i st1))
               | None => deselected st1
               end
           | None => deselected st1
           end
         else st
     | None => st
     end).

Definition after_change_audio_device (device : string) (st : AudioPlayer)
    : AudioPlayer :=
  let st1 := set_audio_output (Some device) (set_last_device_desc device st) in
  saved
    (match current_file_path st with
     | Some p =>
         if negb (is_stopped (player st)) && nonempty p
         then set_player (mkPlayer (Some p) (position (player st)) PlayingState) st1
         else st1
     | None => st1
     end).

(** What a handler may leave of the persisted attributes: nothing changed,
    file included. *)
Definition persisted_kept (st st' : AudioPlayer) : Prop :=
  last_dir st' = last_dir st /\
  last_device_desc st' = last_device_desc st /\
  playlist_memory st' = playlist_memory st /\
  current_file_path st' = current_file_path st /\
  settings_file st' = settings_file st.

(** The playlist dialog and the remembered playlist show the playlist. *)
Definition dialog_lists_playlist (st : AudioPlayer) : Prop :=
  playlist_memory st = playlist st /\
  widget_items st = map (fun f => (basename f, f)) (playlist st).

End ClosedForms.

(** ** A reference instance of the outside world

    Small executable stand-ins for the library functions, to run the
    handlers on concrete inputs: POSIX path functions, a JSON encoder and
    decoder for the values above, and a transliteration table with two
    entries.  Strings are UTF-8 bytes. *)
Module Reference.

Definition dquote : ascii := "034"%char.
Definition backslash : ascii := "092"%char.
Definition slash : ascii := "/"%char.
Definition dot : ascii := "."%char.

(** *** [posixpath] *)

(** Split after the last slash: the head with its slash, and the tail. *)
Fixpoint rsplit_slash (s : string) : option (string * string) :=
  match s with
  | EmptyString => None
  | String c s' =>
      match rsplit_slash s' with
      | Some (h, t) => Some (String c h, t)
      | None => if (c =? slash)%char then Some (String c EmptyString, s') else None
      end
  end.

Fixpoint rstrip_slash (s : string) : string :=
  match s with
  | EmptyString => EmptyString
  | String c s' =>
      let r := rstrip_slash s' in
      if (r =? "")%string && (c =? slash)%char then EmptyString else String c r
  end.

Definition posix_basename (p : string) : string :=
  match rsplit_slash p with
  | Some (_, t) => t
  | None => p
  end.

Definition posix_dirname (p : string) : string :=
  match rsplit_slash p with
  | Some (h, _) => if (rstrip_slash h =? "")%string then h else rstrip_slash h
  | None => EmptyString
  end.

Fixpoint rsplit_dot (s : string) : option (string * string) :=
  match s with
  | EmptyString => None
  | String c s' =>
      match rsplit_dot s' with
      | Some (r, e) => Some (String c r, e)
      | None => if (c =? dot)%char then Some (EmptyString, s) else None
      end
  end.

Fixpoint all_dots (s : string) : bool :=
  match s with
  | EmptyString => true
  | String c s' => (c =? dot)%char && all_dots s'
  end.

Definition posix_splitext (p : string) : string * string :=
  let (h, t) := match rsplit_slash p with
                | Some (h, t) => (h, t)
                | None => (EmptyString, p)
                end in
  match rsplit_dot t with
  | Some (r, e) => if all_dots r then (p, EmptyString) else ((h ++ r)%string, e)
  | None => (p, EmptyString)
  end.

(** *** [pypinyin]: two characters read "a", everything else kept *)

Definition hanzi_a : string := String "229" (String "149" (String "138" EmptyString)).
Definition hanzi_a2 : string := String "233" (String "152" (String "191" EmptyString)).

Definition pinyin_table : list (string * string) :=
  [ (hanzi_a, "a"); (hanzi_a2, "a") ].

Fixpoint table_lookup (k : string) (t : list (string * string)) : option string :=
  match t with
  | [] => None
  | (k', v) :: t' => if (k' =? k)%string then Some v else table_lookup k t'
  end.

Fixpoint table_pinyin (s : string) : list string :=
  match s with
  | EmptyString => []
  | String c1 s1 =>
      match s1 with
      | String c2 (String c3 rest) =>
          match table_lookup (String c1 (String c2 (String c3 EmptyString))) pinyin_table with
          | Some py => py :: table_pinyin rest
          | None => String c1 EmptyString :: table_pinyin s1
          end
      | _ => String c1 EmptyString :: table_pinyin s1
      end
  end.

(** *** [json] *)

Fixpoint escape (s : string) : string :=
  match s with
  | EmptyString => EmptyString
  | String c s' =>
      if (c =? dquote)%char || (c =? backslash)%char
      then String backslash (String c (escape s'))
      else String c (escape s')
  end.

Definition quoted (s : string) : string :=
  String dquote (escape s ++ String dquote EmptyString)%string.

Fixpoint dumps (j : json) : string :=
  match j with
  | JNull => "null"
  | JBool true => "true"
  | JBool false => "false"
  | JNum n => NilZero.string_of_int (Z.to_int n)
  | JStr s => quoted s
  | JArr l =>
      ("[" ++ (fix elems (l : list json) : string :=
                 match l with
                 | [] => EmptyString
                 | [x] => dumps x
                 | x :: l' => dumps x ++ ", " ++ elems l'
                 end) l ++ "]")%string
  | JObj d =>
      ("{" ++ (fix members (d : list (string * json)) : string :=
                 match d with
                 | [] => EmptyString
                 | [(k, v)] => quoted k ++ ": " ++ dumps v
                 | (k, v) :: d' => quoted k ++ ": " ++ dumps v ++ ", " ++ members d'
                 end) d ++ "}")%string
  end.

Definition is_ws (c : ascii) : bool :=
  (c =? " ")%char || (c =? "010")%char || (c =? "013")%char || (c =? "009")%char.

Fixpoint skip_ws (s : string) : string :=
  match s with
  | EmptyString => EmptyString
  | String c s' => if is_ws c then skip_ws s' else s
  end.

Fixpoint strip_prefix (p s : string) : option string :=
  match p, s with
  | EmptyString, _ => Some s
  | String a p', String b s' => if (a =? b)%char then strip_prefix p' s' else None
  | String _ _, EmptyString => None
  end.

(** The rest of a string literal, after its opening quote. *)
Fixpoint parse_string (s : string) : option (string * string) :=
  match s with
  | EmptyString => None
  | String c rest =>
      if (c =? dquote)%char then Some (EmptyString, rest)
      else if (c =? backslash)%char then
        match rest with
        | String c2 rest2 =>
            if (c2 =? dquote)%char || (c2 =? backslash)%char then
              match parse_string rest2 with
              | Some (str, r) => Some (String c2 str, r)
              | None => None
              end
            else None
        | EmptyString => None
        end
      else
        match parse_string rest with
        | Some (str, r) => Some (String c str, r)
        | None => None
        end
  end.

Definition is_digit (c : ascii) : bool :=
  (48 <=? nat_of_ascii c)%nat && (nat_of_ascii c <=? 57)%nat.

Fixpoint span_digits (s : string) : string * string :=
  match s with
  | EmptyString => (EmptyString, EmptyString)
  | String c s' =>
      if is_digit c then let (d, r) := span_digits s' in (String c d, r)
      else (EmptyString, s)
  end.

Definition parse_number (s : string) : option (json * string) :=
  let (sign, body) :=
    match s with
    | String c s' => if (c =? "-")%char then ("-", s') else (EmptyString, s)
    | EmptyString => (EmptyString, s)
    end in
  let (digits, rest) := span_digits body in
  if (digits =? "")%string then None
  else match NilZero.int_of_string (sign ++ digits)%string with
       | Some i => Some (JNum (Z.of_int i), rest)
       | None => None
       end.

(** A dict keeps the last value of a repeated key. *)
Fixpoint dict_set (d : list (string * json)) (k : string) (v : json)
    : list (string * json) :=
  match d with
  | [] => [(k, v)]
  | (k', v') :: d' =>
      if (k' =? k)%string then (k', v) :: d' else (k', v') :: dict_set d' k v
  end.

Fixpoint parse_value (fuel : nat) (s : string) : option (json * string) :=
  match fuel with
  | O => None
  | S fuel' =>
      match skip_ws s with
      | EmptyString => None
      | String c rest =>
          if (c =? "n")%char then option_map (pair JNull) (strip_prefix "ull" rest)
          else if (c =? "t")%char then option_map (pair (JBool true)) (strip_prefix "rue" rest)
          else if (c =? "f")%char then option_map (pair (JBool false)) (strip_prefix "alse" rest)
          else if (c =? dquote)%char then
            match parse_string rest with
            | Some (str, r) => Some (JStr str, r)
            | None => None
            end
          else if (c =? "[")%char then
            match strip_prefix "]" (skip_ws rest) with
            | Some r => Some (JArr [], r)
            | None =>
                match parse_elems fuel' rest with
                | Some (vs, r) => Some (JArr vs, r)
                | None => None
                end
            end
          else if (c =? "{")%char then
            match strip_prefix "}" (skip_ws rest) with
            | Some r => Some (JObj [], r)
            | None =>
                match parse_members fuel' rest with
                | Some (kvs, r) =>
                    Some (JObj (fold_left (fun d kv => dict_set d (fst kv) (snd kv)) kvs []), r)
                | None => None
                end
            end
          else parse_number (String c rest)
      end
  end
with parse_elems (fuel : nat) (s : string) : option (list json * string) :=
  match fuel with
  | O => None
  | S fuel' =>
      match parse_value fuel' s with
      | Some (v, rest) =>
          match skip_ws rest with
          | String c rest' =>
              if (c =? ",")%char then
                match parse_elems fuel' rest' with
                | Some (vs, r) => Some (v :: vs, r)
                | None => None
                end
              else if (c =? "]")%char then Some ([v], rest')
              else None
          | EmptyString => None
          end
      | None => None
      end
  end
with parse_members (fuel : nat) (s : string) : option (list (string * json) * string) :=
  match fuel with
  | O => None
  | S fuel' =>
      match strip_prefix (String dquote EmptyString) (skip_ws s) with
      | Some after_quote =>
          match parse_string after_quote with
          | Some (k, after_key) =>
              match strip_prefix ":" (skip_ws after_key) with
              | Some after_colon =>
                  match parse_value fuel' after_colon with
                  | Some (v, rest) =>
                      match skip_ws rest with
                      | String c rest' =>
                          if (c =? ",")%char then
                            match parse_members fuel' rest' with
                            | Some (kvs, r) => Some ((k, v) :: kvs, r)
                            | None => None
                            end
                          else if (c =? "}")%char then Some ([(k, v)], rest')
                          else None
                      | EmptyString => None
                      end
                  | None => None
                  end
              | None => None
              end
          | None => None
          end
      | None => None
      end
  end.

(** Bytes 245 to 255 occur in no UTF-8 text: reading them raises
    [UnicodeDecodeError] before the decoder sees anything. *)
Fixpoint has_non_utf8_byte (s : string) : bool :=
  match s with
  | EmptyString => false
  | String c s' => (245 <=? nat_of_ascii c)%nat || has_non_utf8_byte s'
  end.

Definition loads (text : string) : json + exn :=
  if has_non_utf8_byte text then inr UnicodeDecodeError
  else match parse_value (2 * String.length text + 2) text with
       | Some (v, rest) =>
           if (skip_ws rest =? "")%string then inl v else inr JSONDecodeError
       | None => inr JSONDecodeError
       end.

(** *** The instance

    Paths are taken as absolute and written with forward slashes already, and
    the geometry bytes stand for their own base64 text. *)
Definition toolkit : Toolkit := {|
  json_dump := dumps;
  json_load := loads;
  lazy_pinyin := table_pinyin;
  dirname := posix_dirname;
  basename := posix_basename;
  splitext := posix_splitext;
  abspath := fun p => p;
  replace_sep := fun p => p;
  toBase64 := fun b => b;
  fromBase64 := fun b => b
|}.

(** A directory tree given by its directories, each with the entries
    [QDir] answers for the audio filters in the order it answers them, and
    the other files that exist. *)
Definition file_system (dirs : list (string * list string)) (others : list string)
    : FileSystem := {|
  isdir := fun d => existsb (fun e => (fst e =? d)%string) dirs;
  path_exists := fun p =>
    existsb (fun e => (fst e =? p)%string || list_in p (snd e)) dirs || list_in p others;
  entryInfoList := fun d _ =>
    match find (fun e => (fst e =? d)%string) dirs with
    | Some e => snd e
    | None => []
    end
|}.

End Reference.

(** ** Concrete inputs

    Settings, directories and player states on the reference instance, used
    by the examples below. *)
Module Examples.

#[local] Existing Instance Reference.toolkit.

Definition settings_a : SettingsStore.Settings :=
  SettingsStore.mkSettings (JStr "/m") (JStr "Speakers")
    (JArr [JStr "/m/a.mp3"; JStr "/m/b.mp3"]) (JStr "/m/b.mp3") None.

Definition settings_b : SettingsStore.Settings :=
  SettingsStore.mkSettings (JStr "/n") (JStr "Headphones")
    (JArr [JStr "/n/c.mp3"]) JNull None.

(** Directory [/m] with two tracks and two images next to [a.mp3]. *)
Definition fs_m : FileSystem :=
  Reference.file_system
    [ ("/m", ["/m/a.mp3"; "/m/b.mp3"]) ]
    [ "/m/a.png"; "/m/a.gif" ].

(** The same directory after [b.mp3] was removed. *)
Definition fs_m_without_b : FileSystem :=
  Reference.file_system [ ("/m", ["/m/a.mp3"]) ] [ "/m/a.png"; "/m/a.gif" ].



Definition state_of (r : result AudioPlayer unit) : AudioPlayer :=
  match r with
  | Return _ st => st
  | Raise _ st => st
  end.

(** The window as it starts with a remembered playlist and no remembered
    file: two tracks, no selection. *)
Definition st_unselected : AudioPlayer :=
  state_of (init fs_m "/m" "Speakers" ["/m/a.mp3"; "/m/b.mp3"] None
              ["Headphones"; "Speakers"] "geo" None).

(** The window as it starts with [b.mp3] remembered: it plays [b.mp3]. *)
Definition st_on_b : AudioPlayer :=
  state_of (init fs_m "/m" "Speakers" ["/m/a.mp3"; "/m/b.mp3"] (Some "/m/b.mp3")
              ["Headphones"; "Speakers"] "geo" None).

(** Five seconds into [b.mp3]. *)
Definition st_playing_b : AudioPlayer :=
  state_of (handle fs_m (SliderMoved 5000) st_on_b).

(** The window as it starts with nothing remembered. *)
Definition st_empty : AudioPlayer :=
  state_of (init fs_m "" "" [] None ["Headphones"; "Speakers"] "geo" None).

(** [b.mp3] paused at five seconds. *)
Definition st_paused_b : AudioPlayer :=
  state_of (handle fs_m PlayPause st_playing_b).

(** A file system on which [/m] is gone. *)
Definition fs_gone : FileSystem := Reference.file_system [] [].

(** A settings text whose geometry entry is a number. *)
Definition text_numeric_geometry : string :=
  Reference.dumps (JObj [ ("last_dir", JStr "/m"); ("window_geometry", JNum 5) ]).

End Examples.

(** * Properties *)

(** ** SettingsStore *)

Section SettingsStoreProperties.
Context {T : Toolkit}.
Import SettingsStore.

(** With no settings file, [load_settings] leaves the attributes alone. *)
Lemma load_settings_missing_file (s : Settings) :
  load_settings None s = Return tt s.
Proof. reflexivity. Qed.

(** A [JSONDecodeError] is caught: the attributes are left alone. *)
Lemma load_settings_decode_error (text : string) (s : Settings) :
  json_load text = inr JSONDecodeError ->
  load_settings (Some text) s = Return tt s.
Proof.
  intros Hload. unfold load_settings, try_except_pass, try_except. rewrite Hload.
  reflexivity.
Qed.

(** What [load_settings] does with a file that decodes to a dict whose
    geometry entry is a non-empty string. *)
Lemma load_settings_object (text : string) (d : list (string * json))
    (b64 : string) (s : Settings) :
  json_load text = inl (JObj d) ->
  dict_get d "window_geometry" JNull = JStr b64 ->
  load_settings (Some text) s =
    Return tt
      (mkSettings (dict_get d "last_dir" (JStr ""))
         (dict_get d "last_device_desc" (JStr ""))
         (dict_get d "playlist_memory" (JArr []))
         (dict_get d "current_file_path" JNull)
         (if truthy (JStr b64) then Some (fromBase64 b64) else window_geometry s)).
Proof.
  intros Hload Hgeo.
  unfold load_settings, try_except_pass, try_except. rewrite Hload.
  unfold assign_from, bind, modify, ret. cbn [last_dir last_device_desc
    playlist_memory current_file_path window_geometry].
  rewrite Hgeo. destruct (truthy (JStr b64)); reflexivity.
Qed.

(** C1. [save_settings] followed by [load_settings] gives back the saved
    values of [last_dir], [last_device_desc], [playlist_memory] and
    [current_file_path], whatever the attributes held before the load (the
    defaults, for the spec's [load()]) and whatever the file held before the
    save, provided [json.load] reads the dumped document back. *)
Theorem save_then_load_roundtrip (s s0 : Settings) (geometry : string)
    (file : option string) :
  json_load (json_dump (settings_dict s geometry)) = inl (settings_dict s geometry) ->
  exists s',
    load_settings (save_settings s geometry file) s0 = Return tt s' /\
    last_dir s' = last_dir s /\
    last_device_desc s' = last_device_desc s /\
    playlist_memory s' = playlist_memory s /\
    current_file_path s' = current_file_path s.
Proof.
  intros Hcodec.
  unfold save_settings, save_upto.
  eexists. split.
  - eapply load_settings_object; [exact Hcodec | reflexivity].
  - cbn. repeat split; reflexivity.
Qed.

(** C2, at the failing input. When [settings.json] holds a JSON text that
    is not an object (an array, a string, a number, [null]), [json.load]
    succeeds, [data.get] raises [AttributeError], and the handler for
    [JSONDecodeError] does not catch it: [load_settings] raises. *)
Theorem load_settings_raises_on_non_object (text : string) (data : json)
    (s : Settings) :
  json_load text = inl data ->
  (forall d, data <> JObj d) ->
  load_settings (Some text) s = Raise AttributeError s.
Proof.
  intros Hload Hshape.
  unfold load_settings, try_except_pass, try_except. rewrite Hload.
  destruct data; try reflexivity.
  exfalso. eapply Hshape. reflexivity.
Qed.

(** A file that is not UTF-8 text is not caught either. *)
Lemma load_settings_raises_on_unicode_error (text : string) (s : Settings) :
  json_load text = inr UnicodeDecodeError ->
  load_settings (Some text) s = Raise UnicodeDecodeError s.
Proof.
  intros Hload. unfold load_settings, try_except_pass, try_except. rewrite Hload.
  reflexivity.
Qed.

(** [substring 0 n] cuts a prefix. *)
Lemma substring_0_prefix (n : nat) (s : string) :
  prefix (substring 0 n s) s = true.
Proof.
  revert s. induction n as [|n IH]; intros [|c s]; cbn; try reflexivity.
  destruct (ascii_dec c c) as [_|Hne]; [apply IH | now elim Hne].
Qed.

(** C8, as the code has it. A save that completes overwrites the file with
    the dump of the full record, whatever it held.  The save is not atomic:
    one interrupted before the file is opened leaves the file as it was,
    one interrupted later leaves a prefix of the new text, empty when
    nothing was written yet, in place of the previous content. *)
Theorem save_overwrites_without_atomicity (s : Settings) (geometry : string)
    (file : option string) :
  save_settings s geometry file = Some (json_dump (settings_dict s geometry)) /\
  save_upto NotOpened s geometry file = file /\
  save_upto (Written 0) s geometry file = Some EmptyString /\
  forall n, exists written,
    save_upto (Written n) s geometry file = Some written /\
    prefix written (json_dump (settings_dict s geometry)) = true.
Proof.
  repeat split.
  - cbn. now destruct (json_dump _).
  - intros n. eexists. split; [reflexivity | apply substring_0_prefix].
Qed.

End SettingsStoreProperties.


(** ** The order of strings *)

Lemma ascii_compare_N (a b : ascii) :
  Ascii.compare a b = (N_of_ascii a ?= N_of_ascii b)%N.
Proof. reflexivity. Qed.

Lemma ascii_compare_refl (a : ascii) : Ascii.compare a a = Eq.
Proof. rewrite ascii_compare_N. apply N.compare_refl. Qed.

Lemma string_compare_refl (s : string) : (s ?= s)%string = Eq.
Proof.
  induction s as [|c s IH]; cbn; [reflexivity|].
  now rewrite ascii_compare_refl.
Qed.

Lemma string_compare_lt_trans (s1 s2 s3 : string) :
  (s1 ?= s2)%string = Lt -> (s2 ?= s3)%string = Lt -> (s1 ?= s3)%string = Lt.
Proof.
  revert s2 s3.
  induction s1 as [|a s1 IH]; intros [|b s2] [|c s3]; cbn; try congruence.
  destruct (Ascii.compare a b) eqn:Hab; try discriminate;
    destruct (Ascii.compare b c) eqn:Hbc; try discriminate; intros H12 H23.
  - apply Ascii.compare_eq_iff in Hab, Hbc. subst.
    rewrite ascii_compare_refl. eauto.
  - apply Ascii.compare_eq_iff in Hab. subst. now rewrite Hbc.
  - apply Ascii.compare_eq_iff in Hbc. subst. now rewrite Hab.
  - rewrite ascii_compare_N in *.
    rewrite N.compare_lt_iff in Hab, Hbc.
    assert (Hac : (N_of_ascii a ?= N_of_ascii c)%N = Lt)
      by (apply N.compare_lt_iff; lia).
    now rewrite Hac.
Qed.

Lemma string_leb_refl (s : string) : (s <=? s)%string = true.
Proof. unfold String.leb. now rewrite string_compare_refl. Qed.

Lemma string_leb_trans (s1 s2 s3 : string) :
  (s1 <=? s2)%string = true -> (s2 <=? s3)%string = true ->
  (s1 <=? s3)%string = true.
Proof.
  unfold String.leb.
  destruct (s1 ?= s2)%string eqn:H12; try discriminate;
    destruct (s2 ?= s3)%string eqn:H23; try discriminate; intros _ _.
  - apply String.compare_eq_iff in H12, H23. subst.
    now rewrite string_compare_refl.
  - apply String.compare_eq_iff in H12. subst. now rewrite H23.
  - apply String.compare_eq_iff in H23. subst. now rewrite H12.
  - now rewrite (string_compare_lt_trans _ _ _ H12 H23).
Qed.

Lemma string_leb_false_flip (s1 s2 : string) :
  (s1 <=? s2)%string = false -> (s2 <=? s1)%string = true.
Proof.
  intros H. destruct (String.leb_total s1 s2) as [H'|H']; congruence.
Qed.

Lemma string_leb_false_ltb (s1 s2 : string) :
  (s1 <=? s2)%string = false -> (s2 <? s1)%string = true.
Proof.
  unfold String.ltb, String.leb. rewrite (String.compare_antisym s2 s1).
  destruct (s1 ?= s2)%string; cbn; congruence.
Qed.

Lemma string_leb_cases (s1 s2 : string) :
  (s1 <=? s2)%string = true -> (s1 <? s2)%string = true \/ s1 = s2.
Proof.
  unfold String.ltb, String.leb.
  destruct (s1 ?= s2)%string eqn:Hcmp; try discriminate; intros _.
  - right. now apply String.compare_eq_iff.
  - now left.
Qed.

Lemma string_ltb_leb (s1 s2 : string) :
  (s1 <? s2)%string = true -> (s1 <=? s2)%string = true.
Proof.
  unfold String.ltb, String.leb. now destruct (s1 ?= s2)%string.
Qed.

(** ** [list.sort(key=...)] *)

Section SortProperties.
Variable key : string -> string.

Lemma insert_by_key_perm (x : string) (l : list string) :
  Permutation (x :: l) (insert_by_key key x l).
Proof.
  induction l as [|y l IH]; cbn; [reflexivity|].
  destruct (key x <=? key y)%string; [reflexivity|].
  rewrite perm_swap. now constructor.
Qed.

Lemma sort_by_key_perm (l : list string) :
  Permutation l (sort_by_key key l).
Proof.
  induction l as [|x l IH]; cbn; [constructor|].
  rewrite <- insert_by_key_perm. now constructor.
Qed.

Lemma insert_by_key_sorted (x : string) (l : list string) :
  StronglySorted (key_le key) l ->
  StronglySorted (key_le key) (insert_by_key key x l).
Proof.
  induction 1 as [|y l Hsorted IH Hall]; cbn.
  - repeat constructor.
  - destruct (key x <=? key y)%string eqn:Hxy.
    + constructor; [now constructor|].
      constructor; [exact Hxy|].
      eapply Forall_impl; [|exact Hall].
      intros z Hyz. unfold key_le in *. eapply string_leb_trans; eauto.
    + constructor; [exact IH|].
      eapply Permutation_Forall; [apply insert_by_key_perm|].
      constructor; [|exact Hall].
      now apply string_leb_false_flip.
Qed.

Lemma sort_by_key_sorted (l : list string) :
  StronglySorted (key_le key) (sort_by_key key l).
Proof.
  induction l as [|x l IH]; cbn; [constructor|].
  now apply insert_by_key_sorted.
Qed.

(** Inserting does not reorder the entries that share a key. *)
Lemma insert_by_key_filter (k x : string) (l : list string) :
  filter (fun p => (key p =? k)%string) (insert_by_key key x l) =
  filter (fun p => (key p =? k)%string) (x :: l).
Proof.
  induction l as [|y l IH]; [reflexivity|].
  cbn [insert_by_key].
  destruct (key x <=? key y)%string eqn:Hxy; [reflexivity|].
  cbn [filter] in *. rewrite IH.
  destruct (key x =? k)%string eqn:Hx; [|reflexivity].
  destruct (key y =? k)%string eqn:Hy; [|reflexivity].
  apply String.eqb_eq in Hx, Hy. rewrite Hx, Hy in Hxy.
  now rewrite string_leb_refl in Hxy.
Qed.

Lemma sort_by_key_stable (k : string) (l : list string) :
  filter (fun p => (key p =? k)%string) (sort_by_key key l) =
  filter (fun p => (key p =? k)%string) l.
Proof.
  induction l as [|x l IH]; [reflexivity|].
  cbn [sort_by_key]. rewrite insert_by_key_filter.
  cbn [filter]. now rewrite IH.
Qed.

(** When the list is given in the order of the names, the stable sort
    leaves the entries of equal key in that order: the result is then
    ordered by key first and by name on equal keys. *)
Lemma key_then_name_le_key_le (x y : string) :
  key_then_name_le key x y -> key_le key x y.
Proof.
  intros [Hlt | [Heq _]]; unfold key_le.
  - now apply string_ltb_leb.
  - rewrite Heq. apply string_leb_refl.
Qed.

Lemma key_le_name_le_key_then_name (x y : string) :
  key_le key x y -> (x <=? y)%string = true -> key_then_name_le key x y.
Proof.
  intros Hk Hn. destruct (string_leb_cases _ _ Hk) as [Hlt | Heq].
  - now left.
  - right. now split.
Qed.

Lemma insert_by_key_sorted_by_name (x : string) (l : list string) :
  StronglySorted (key_then_name_le key) l ->
  Forall (fun y => (x <=? y)%string = true) l ->
  StronglySorted (key_then_name_le key) (insert_by_key key x l).
Proof.
  induction 1 as [|y l Hsorted IH Hall]; intros Hnames; cbn.
  - repeat constructor.
  - inversion Hnames as [|y' l' Hxy_name Hnames_tail]; subst.
    destruct (key x <=? key y)%string eqn:Hxy.
    + constructor; [now constructor|].
      constructor; [now apply key_le_name_le_key_then_name|].
      rewrite Forall_forall in *. intros z Hz.
      apply key_le_name_le_key_then_name; [|now apply Hnames_tail].
      unfold key_le. eapply string_leb_trans; [exact Hxy|].
      now apply key_then_name_le_key_le, Hall.
    + constructor; [now apply IH|].
      eapply Permutation_Forall; [apply insert_by_key_perm|].
      constructor; [|exact Hall].
      left. now apply string_leb_false_ltb.
Qed.

Lemma sort_by_key_sorted_by_name (l : list string) :
  StronglySorted (fun x y => (x <=? y)%string = true) l ->
  StronglySorted (key_then_name_le key) (sort_by_key key l).
Proof.
  induction 1 as [|x l Hsorted IH Hall]; cbn; [constructor|].
  apply insert_by_key_sorted_by_name; [exact IH|].
  eapply Permutation_Forall; [apply sort_by_key_perm | exact Hall].
Qed.



(** A list in the order of its names has its ties in that order. *)
Lemma name_sorted_ties_in_name_order (l : list string) :
  StronglySorted name_le l -> ties_in_name_order key l.
Proof.
  intros Hsorted k.
  induction Hsorted as [|x l Hsorted IH Hall]; cbn [filter]; [constructor|].
  destruct (key x =? k)%string; [|exact IH].
  constructor; [exact IH|].
  rewrite Forall_forall in *. intros z Hz.
  apply Hall. now apply filter_In in Hz.
Qed.

End SortProperties.

(** ** DirectoryScanner *)

Section ScanProperties.
Context {T : Toolkit}.

(** The sort by itself: the scanned list holds the entries the directory
    enumeration returned, ordered by their transliterated keys compared as
    strings; entries whose keys are equal stay in the order in which the
    enumeration returned them (the sort compares the keys only and is
    stable). *)
Theorem scan_sorted_by_key_stable (fs : FileSystem) (directory : string) :
  let name_filters := map (fun ext => ("*" ++ ext)%string) AUDIO_EXTENSIONS in
  let files := map replace_sep (entryInfoList fs directory name_filters) in
  Permutation files (scan fs directory) /\
  StronglySorted (key_le sort_key) (scan fs directory) /\
  forall k, filter (fun p => (sort_key p =? k)%string) (scan fs directory) =
            filter (fun p => (sort_key p =? k)%string) files.
Proof.
  cbn zeta. unfold scan. repeat split.
  - apply sort_by_key_perm.
  - apply sort_by_key_sorted.
  - intros k. apply sort_by_key_stable.
Qed.

(** The order the spec describes is reached when the enumeration returns
    the entries in the order of their names. *)
Lemma scan_sorted_by_key_then_name (fs : FileSystem) (directory : string) :
  let name_filters := map (fun ext => ("*" ++ ext)%string) AUDIO_EXTENSIONS in
  let files := map replace_sep (entryInfoList fs directory name_filters) in
  StronglySorted (fun x y => (x <=? y)%string = true) files ->
  StronglySorted (key_then_name_le sort_key) (scan fs directory).
Proof.
  cbn zeta. unfold scan. apply sort_by_key_sorted_by_name.
Qed.


End ScanProperties.

(** ** Python list operations *)

Lemma list_index_Some (x : string) (l : list string) (i : Z) :
  list_index x l = Some i ->
  0 <= i < Z.of_nat (List.length l) /\ nth_error l (Z.to_nat i) = Some x.
Proof.
  revert i. induction l as [|y l IH]; intros i; cbn [list_index]; [discriminate|].
  destruct (y =? x)%string eqn:Hyx.
  - intros [= <-]. apply String.eqb_eq in Hyx. subst.
    cbn [List.length]. split; [lia | reflexivity].
  - destruct (list_index x l) as [j|]; [|discriminate].
    intros [= <-]. destruct (IH j eq_refl) as [Hj Hnth].
    cbn [List.length]. split; [lia|].
    replace (Z.to_nat (j + 1)) with (S (Z.to_nat j)) by lia. exact Hnth.
Qed.

Lemma list_index_None (x : string) (l : list string) :
  list_index x l = None <-> list_in x l = false.
Proof.
  unfold list_in. induction l as [|y l IH]; cbn; [tauto|].
  destruct (y =? x)%string; cbn.
  - split; discriminate.
  - destruct (list_index x l); [|tauto].
    split; [discriminate|]. intros H. apply IH in H. discriminate.
Qed.

Lemma list_in_In (x : string) (l : list string) :
  list_in x l = true <-> In x l.
Proof.
  unfold list_in. rewrite existsb_exists. split.
  - intros (y & Hin & Heq). apply String.eqb_eq in Heq. now subst.
  - intros Hin. exists x. split; [exact Hin | apply String.eqb_refl].
Qed.

Lemma list_in_index (x : string) (l : list string) :
  list_in x l = true -> exists i, list_index x l = Some i.
Proof.
  intros Hin. destruct (list_index x l) as [i|] eqn:Hi; [now exists i|].
  apply list_index_None in Hi. congruence.
Qed.

Lemma getitem_in_range (l : list string) (i : Z) :
  0 <= i < Z.of_nat (List.length l) ->
  getitem l i = nth_error l (Z.to_nat i).
Proof.
  intros Hi. unfold getitem.
  replace (0 <=? i) with true by lia.
  replace (i <? Z.of_nat (List.length l)) with true by lia.
  reflexivity.
Qed.

Lemma getitem_in_range_Some (l : list string) (i : Z) :
  0 <= i < Z.of_nat (List.length l) ->
  exists p, getitem l i = Some p /\ nth_error l (Z.to_nat i) = Some p.
Proof.
  intros Hi. rewrite (getitem_in_range l i Hi).
  destruct (nth_error l (Z.to_nat i)) as [p|] eqn:Hnth; [now exists p|].
  apply nth_error_None in Hnth. lia.
Qed.

(** ** The handlers *)

Section PlayerProperties.
Context {T : Toolkit}.

Ltac run := unfold bind, modify, get, ret, raise; cbv beta.

(** Projections of updated states. *)
Ltac fields :=
  cbv beta iota delta
    [last_dir last_device_desc playlist_memory current_file_path playlist
     current_index current_image_path player audio_devices audio_output
     widget_items current_row geometry settings_file
     set_last_dir set_last_device_desc set_playlist_memory
     set_current_file_path set_playlist set_current_index
     set_current_image_path set_player set_audio_output set_widget_items
     set_current_row set_settings_file
     source position playbackState setSource setPosition qplay qpause qstop
     is_playing is_stopped andb negb].

Ltac fields_all :=
  cbv beta iota delta
    [last_dir last_device_desc playlist_memory current_file_path playlist
     current_index current_image_path player audio_devices audio_output
     widget_items current_row geometry settings_file
     set_last_dir set_last_device_desc set_playlist_memory
     set_current_file_path set_playlist set_current_index
     set_current_image_path set_player set_audio_output set_widget_items
     set_current_row set_settings_file
     source position playbackState setSource setPosition qplay qpause qstop
     is_playing is_stopped andb negb] in *.

Lemma load_image_loop_run (fs : FileSystem) (base_path : string)
    (exts : list string) (st : AudioPlayer) :
  load_image_loop fs base_path exts st =
    Return tt (match first_existing fs base_path exts with
               | Some image_path => set_current_image_path (Some image_path) st
               | None => st
               end).
Proof.
  induction exts as [|ext rest IH]; cbn [load_image_loop first_existing];
    [reflexivity|].
  destruct (path_exists fs (base_path ++ ext)%string); [reflexivity | exact IH].
Qed.

Lemma load_image_run (fs : FileSystem) (audio_path : string) (st : AudioPlayer) :
  load_image fs audio_path st =
    Return tt (set_current_image_path
                 (first_existing fs (fst (splitext audio_path)) IMAGE_EXTENSIONS) st).
Proof.
  unfold load_image. run. rewrite load_image_loop_run.
  destruct (first_existing fs _ IMAGE_EXTENSIONS); reflexivity.
Qed.

(** What [play_file] leaves behind. *)
Lemma play_file_run (fs : FileSystem) (file_path : string) (st : AudioPlayer) :
  exists st',
    play_file fs file_path st = Return tt st' /\
    current_file_path st' = Some file_path /\
    player st' = mkPlayer (Some file_path) 0 PlayingState /\
    current_image_path st' =
      first_existing fs (fst (splitext file_path)) IMAGE_EXTENSIONS /\
    playlist st' = playlist st /\
    current_index st' = current_index st /\
    playlist_memory st' = playlist_memory st /\
    last_dir st' = last_dir st /\
    audio_devices st' = audio_devices st.
Proof.
  unfold play_file, save_settings. run. rewrite load_image_run.
  eexists. split; [reflexivity|]. cbn. repeat split; reflexivity.
Qed.

(** A move of the cursor to a valid index [i], followed by playing the
    entry there: the tail shared by [play_next] and [play_previous]. *)
Lemma play_at_cursor_run (fs : FileSystem) (st : AudioPlayer) (i : Z) :
  0 <= i < Z.of_nat (List.length (playlist st)) ->
  exists st' p,
    (st1 <- get ;;
     p <- playlist_getitem (current_index st1) ;;
     play_file fs p ;;;
     modify (fun st => set_current_row (current_index st) st))
      (set_current_index i st) = Return tt st' /\
    nth_error (playlist st) (Z.to_nat i) = Some p /\
    current_index st' = i /\
    current_file_path st' = Some p /\
    player st' = mkPlayer (Some p) 0 PlayingState /\
    playlist st' = playlist st.
Proof.
  intros Hi.
  destruct (getitem_in_range_Some (playlist st) i Hi) as (p & Hget & Hnth).
  destruct (play_file_run fs p (set_current_index i st))
    as (st2 & Hplay & Hcur & Hplayer & _ & Hlist & Hidx & _).
  exists (set_current_row (current_index st2) st2), p.
  unfold playlist_getitem. run. cbn [current_index set_current_index playlist].
  rewrite Hget. rewrite Hplay.
  split; [reflexivity|]. cbn in *. repeat split; assumption.
Qed.

Lemma play_next_run (fs : FileSystem) (st : AudioPlayer) :
  playlist st <> [] ->
  exists st' p,
    play_next fs st = Return tt st' /\
    current_index st' =
      (current_index st + 1) mod Z.of_nat (List.length (playlist st)) /\
    nth_error (playlist st) (Z.to_nat (current_index st')) = Some p /\
    current_file_path st' = Some p /\
    player st' = mkPlayer (Some p) 0 PlayingState /\
    playlist st' = playlist st.
Proof.
  intros Hne.
  set (i := (current_index st + 1) mod Z.of_nat (List.length (playlist st))).
  assert (Hi : 0 <= i < Z.of_nat (List.length (playlist st))).
  { apply Z.mod_pos_bound. destruct (playlist st); [congruence | cbn; lia]. }
  destruct (play_at_cursor_run fs st i Hi)
    as (st' & p & Hrun & Hnth & Hidx & Hcur & Hplayer & Hlist).
  exists st', p.
  unfold play_next. unfold bind at 1. unfold get at 1.
  destruct (playlist st) as [|q l] eqn:Hpl; [congruence|].
  unfold bind at 1. unfold modify at 1. rewrite Hpl. fold i.
  rewrite Hidx. repeat split; assumption.
Qed.

Lemma play_previous_run (fs : FileSystem) (st : AudioPlayer) :
  playlist st <> [] ->
  exists st' p,
    play_previous fs st = Return tt st' /\
    current_index st' =
      (current_index st - 1) mod Z.of_nat (List.length (playlist st)) /\
    nth_error (playlist st) (Z.to_nat (current_index st')) = Some p /\
    current_file_path st' = Some p /\
    player st' = mkPlayer (Some p) 0 PlayingState /\
    playlist st' = playlist st.
Proof.
  intros Hne.
  set (i := (current_index st - 1) mod Z.of_nat (List.length (playlist st))).
  assert (Hi : 0 <= i < Z.of_nat (List.length (playlist st))).
  { apply Z.mod_pos_bound. destruct (playlist st); [congruence | cbn; lia]. }
  destruct (play_at_cursor_run fs st i Hi)
    as (st' & p & Hrun & Hnth & Hidx & Hcur & Hplayer & Hlist).
  exists st', p.
  unfold play_previous. unfold bind at 1. unfold get at 1.
  destruct (playlist st) as [|q l] eqn:Hpl; [congruence|].
  unfold bind at 1. unfold modify at 1. rewrite Hpl. fold i.
  rewrite Hidx. repeat split; assumption.
Qed.

Lemma playlist_index_run (x : string) (st : AudioPlayer) :
  playlist_index x st =
    match list_index x (playlist st) with
    | Some i => Return i st
    | None => Raise ValueError st
    end.
Proof.
  unfold playlist_index. run. now destruct (list_index x (playlist st)).
Qed.

(** *** Next and previous *)

Lemma repeat_play_next_run (fs : FileSystem) (k : nat) (st : AudioPlayer) :
  playlist st <> [] ->
  0 <= current_index st < Z.of_nat (List.length (playlist st)) ->
  exists st',
    repeat_call k (play_next fs) st = Return tt st' /\
    current_index st' =
      (current_index st + Z.of_nat k) mod Z.of_nat (List.length (playlist st)) /\
    playlist st' = playlist st.
Proof.
  revert st. induction k as [|k IH]; intros st Hne Hc.
  - exists st. cbn [repeat_call]. split; [reflexivity|].
    rewrite Z.add_0_r, Z.mod_small by exact Hc. split; reflexivity.
  - destruct (play_next_run fs st Hne) as (st1 & p & Hrun & Hidx & _ & _ & _ & Hlist).
    destruct (IH st1) as (st' & Hrep & Hidx' & Hlist').
    + now rewrite Hlist.
    + rewrite Hidx, Hlist. apply Z.mod_pos_bound.
      destruct (playlist st); [congruence | cbn; lia].
    + exists st'. cbn [repeat_call]. unfold bind at 1. rewrite Hrun.
      split; [exact Hrep|]. split; [|congruence].
      rewrite Hidx', Hidx, Hlist, Z.add_mod_idemp_l.
      * f_equal. lia.
      * destruct (playlist st); [congruence | cbn; lia].
Qed.

Lemma repeat_play_previous_run (fs : FileSystem) (k : nat) (st : AudioPlayer) :
  playlist st <> [] ->
  0 <= current_index st < Z.of_nat (List.length (playlist st)) ->
  exists st',
    repeat_call k (play_previous fs) st = Return tt st' /\
    current_index st' =
      (current_index st - Z.of_nat k) mod Z.of_nat (List.length (playlist st)) /\
    playlist st' = playlist st.
Proof.
  revert st. induction k as [|k IH]; intros st Hne Hc.
  - exists st. cbn [repeat_call]. split; [reflexivity|].
    rewrite Z.sub_0_r, Z.mod_small by exact Hc. split; reflexivity.
  - destruct (play_previous_run fs st Hne)
      as (st1 & p & Hrun & Hidx & _ & _ & _ & Hlist).
    destruct (IH st1) as (st' & Hrep & Hidx' & Hlist').
    + now rewrite Hlist.
    + rewrite Hidx, Hlist. apply Z.mod_pos_bound.
      destruct (playlist st); [congruence | cbn; lia].
    + exists st'. cbn [repeat_call]. unfold bind at 1. rewrite Hrun.
      split; [exact Hrep|]. split; [|congruence].
      rewrite Hidx', Hidx, Hlist, Zminus_mod_idemp_l.
      f_equal. lia.
Qed.

(** C4, as the code has it. On a playlist of length [N > 0] and from a cursor
    [c] that is a valid index, [play_next] moves the cursor to
    [(c + 1) mod N], [play_previous] to [(c - 1) mod N], and [N] calls of
    either bring the cursor back to [c]. *)
Theorem next_previous_wraparound (fs : FileSystem) (st : AudioPlayer) :
  let N := Z.of_nat (List.length (playlist st)) in
  let c := current_index st in
  playlist st <> [] ->
  0 <= c < N ->
  (exists st', play_next fs st = Return tt st' /\
               current_index st' = (c + 1) mod N) /\
  (exists st', play_previous fs st = Return tt st' /\
               current_index st' = (c - 1) mod N) /\
  (exists st', repeat_call (List.length (playlist st)) (play_next fs) st
                 = Return tt st' /\
               current_index st' = c) /\
  (exists st', repeat_call (List.length (playlist st)) (play_previous fs) st
                 = Return tt st' /\
               current_index st' = c).
Proof.
  intros N c Hne Hc. subst N c.
  assert (HN : 0 < Z.of_nat (List.length (playlist st)))
    by (destruct (playlist st); [congruence | cbn; lia]).
  repeat split.
  - destruct (play_next_run fs st Hne) as (st' & p & Hrun & Hidx & _).
    now exists st'.
  - destruct (play_previous_run fs st Hne) as (st' & p & Hrun & Hidx & _).
    now exists st'.
  - destruct (repeat_play_next_run fs (List.length (playlist st)) st Hne Hc)
      as (st' & Hrun & Hidx & _).
    exists st'. split; [exact Hrun|]. rewrite Hidx.
    rewrite <- (Z.mul_1_l (Z.of_nat (List.length (playlist st)))) at 1.
    rewrite Z.mod_add by lia. now apply Z.mod_small.
  - destruct (repeat_play_previous_run fs (List.length (playlist st)) st Hne Hc)
      as (st' & Hrun & Hidx & _).
    exists st'. split; [exact Hrun|]. rewrite Hidx.
    replace (current_index st - Z.of_nat (List.length (playlist st)))
      with (current_index st + (-1) * Z.of_nat (List.length (playlist st))) by lia.
    rewrite Z.mod_add by lia. now apply Z.mod_small.
Qed.

(** C10. With a non-empty playlist of length [N] and no selection (cursor
    -1), [play_next] selects index 0 and plays the first track, and
    [play_previous] selects index [(N - 2) mod N]: for [N >= 2] the
    second-to-last track, not the last one. *)
Theorem next_previous_from_no_selection (fs : FileSystem) (st : AudioPlayer) :
  let N := Z.of_nat (List.length (playlist st)) in
  playlist st <> [] ->
  current_index st = -1 ->
  (exists st' first,
     play_next fs st = Return tt st' /\
     current_index st' = 0 /\
     nth_error (playlist st) 0 = Some first /\
     current_file_path st' = Some first /\
     player st' = mkPlayer (Some first) 0 PlayingState) /\
  (exists st' p,
     play_previous fs st = Return tt st' /\
     current_index st' = (N - 2) mod N /\
     nth_error (playlist st) (Z.to_nat ((N - 2) mod N)) = Some p /\
     current_file_path st' = Some p /\
     (2 <= N -> current_index st' = N - 2 /\ current_index st' <> N - 1)).
Proof.
  intros N Hne Hc. subst N.
  assert (HN : 0 < Z.of_nat (List.length (playlist st)))
    by (destruct (playlist st); [congruence | cbn; lia]).
  split.
  - destruct (play_next_run fs st Hne)
      as (st' & p & Hrun & Hidx & Hnth & Hcur & Hplayer & _).
    rewrite Hc in Hidx. change (-1 + 1) with 0 in Hidx.
    rewrite Z.mod_0_l in Hidx by lia.
    rewrite Hidx in Hnth. exists st', p. repeat split; assumption.
  - destruct (play_previous_run fs st Hne)
      as (st' & p & Hrun & Hidx & Hnth & Hcur & _).
    rewrite Hc in Hidx. change (-1 - 1) with (-2) in Hidx.
    assert (Heq : (-2) mod Z.of_nat (List.length (playlist st)) =
                  (Z.of_nat (List.length (playlist st)) - 2)
                    mod Z.of_nat (List.length (playlist st))).
    { replace (Z.of_nat (List.length (playlist st)) - 2)
        with (-2 + 1 * Z.of_nat (List.length (playlist st))) by lia.
      now rewrite Z.mod_add by lia. }
    rewrite Heq in Hidx. rewrite Hidx in Hnth.
    exists st', p. repeat split; try assumption.
    + rewrite Hidx. apply Z.mod_small. lia.
    + rewrite Hidx, Z.mod_small; lia.
Qed.

(** *** The companion image *)

Lemma first_existing_spec (fs : FileSystem) (base_path : string)
    (exts : list string) :
  match first_existing fs base_path exts with
  | Some image_path =>
      exists before ext after,
        exts = before ++ ext :: after /\
        image_path = (base_path ++ ext)%string /\
        path_exists fs image_path = true /\
        forall e, In e before -> path_exists fs (base_path ++ e)%string = false
  | None =>
      forall e, In e exts -> path_exists fs (base_path ++ e)%string = false
  end.
Proof.
  induction exts as [|ext rest IH]; cbn [first_existing].
  - intros e [].
  - destruct (path_exists fs (base_path ++ ext)%string) eqn:Hext.
    + exists [], ext, rest. repeat split; try assumption. intros e [].
    + destruct (first_existing fs base_path rest) as [image_path|].
      * destruct IH as (before & ext' & after & -> & -> & Hex & Hnone).
        exists (ext :: before), ext', after. repeat split; try assumption.
        intros e [<-|Hin]; [exact Hext | now apply Hnone].
      * intros e [<-|Hin]; [exact Hext | now apply IH].
Qed.

(** C9. Opening an audio path resolves its companion image to
    [base_path + ext] for the first [ext] of jpg, jpeg, png, bmp, gif, in
    that order, for which the file exists, [base_path] being the audio path
    without its extension; it resolves to none when none of the five
    exists. *)
Theorem companion_image_first_existing (fs : FileSystem) (audio_path : string)
    (st : AudioPlayer) :
  let base_path := fst (splitext audio_path) in
  exists st',
    play_file fs audio_path st = Return tt st' /\
    match current_image_path st' with
    | Some image_path =>
        exists before ext after,
          [".jpg"; ".jpeg"; ".png"; ".bmp"; ".gif"] = before ++ ext :: after /\
          image_path = (base_path ++ ext)%string /\
          path_exists fs image_path = true /\
          forall e, In e before -> path_exists fs (base_path ++ e)%string = false
    | None =>
        forall e, In e [".jpg"; ".jpeg"; ".png"; ".bmp"; ".gif"] ->
                  path_exists fs (base_path ++ e)%string = false
    end.
Proof.
  intros base_path.
  destruct (play_file_run fs audio_path st) as (st' & Hrun & _ & _ & Himg & _).
  exists st'. split; [exact Hrun|]. rewrite Himg.
  apply (first_existing_spec fs base_path IMAGE_EXTENSIONS).
Qed.

(** *** Reloading the directory *)

Lemma load_directory_to_playlist_run (fs : FileSystem) (directory : string)
    (st : AudioPlayer) :
  exists st',
    load_directory_to_playlist fs directory st = Return tt st' /\
    playlist st' = scan fs directory /\
    playlist_memory st' = scan fs directory /\
    current_file_path st' = current_file_path st /\
    current_index st' = current_index st /\
    player st' = player st /\
    last_dir st' = last_dir st.
Proof.
  unfold load_directory_to_playlist. run.
  eexists. split; [reflexivity|]. cbn. repeat split; reflexivity.
Qed.

(** C5. When [reload_current_directory_playlist] rescans the directory of
    the current file [P] (its directory name is not empty and is a
    directory): if [P] is in the freshly scanned list, the cursor is the
    index of [P] in that list (the first one, a valid index, with [P] as its
    entry), [P] stays the current file and, when the player was playing, it
    plays [P] again at the position it had; if [P] is not in the list, the
    player is stopped, the cursor is -1 and the current file path is
    cleared. *)
Theorem reload_keeps_selection_or_resets (fs : FileSystem) (st : AudioPlayer)
    (P : string) :
  current_file_path st = Some P ->
  nonempty P = true ->
  nonempty (dirname P) = true ->
  isdir fs (dirname P) = true ->
  exists st',
    reload_current_directory_playlist fs st = Return tt st' /\
    playlist st' = scan fs (dirname P) /\
    (list_in P (scan fs (dirname P)) = true ->
       list_index P (playlist st') = Some (current_index st') /\
       0 <= current_index st' < Z.of_nat (List.length (playlist st')) /\
       nth_error (playlist st') (Z.to_nat (current_index st')) = Some P /\
       getitem (playlist st') (current_index st') = Some P /\
       current_file_path st' = Some P /\
       source (player st') = Some P /\
       (playbackState (player st) = PlayingState ->
          position (player st') = position (player st) /\
          playbackState (player st') = PlayingState)) /\
    (list_in P (scan fs (dirname P)) = false ->
       playbackState (player st') = StoppedState /\
       current_index st' = -1 /\
       current_file_path st' = None).
Proof.
  intros Hcur HP Hd Hdir.
  destruct st as [ld ldd pm cfp pl ci cip pla ad ao wi cr geo sf].
  cbn in Hcur. subst cfp.
  unfold reload_current_directory_playlist, load_directory_to_playlist,
    current_in_playlist, playlist_index, stop, save_settings.
  run. fields. rewrite HP, Hd, Hdir. fields.
  destruct (list_in P (scan fs (dirname P))) eqn:Hin.
  - destruct (list_in_index _ _ Hin) as [i Hi]. rewrite Hi.
    destruct (list_index_Some _ _ _ Hi) as [Hrange Hnth].
    destruct pla as [src pos [| |]]; fields;
      (eexists; split; [reflexivity|]); fields;
      (split; [reflexivity|]); (split; [|discriminate]); intros _;
      rewrite (getitem_in_range _ _ Hrange), Hnth;
      repeat split; try reflexivity; try exact Hi; try exact Hnth;
      try apply Hrange; discriminate.
  - eexists. split; [reflexivity|]. fields.
    split; [reflexivity|]. split; [discriminate|]. intros _.
    repeat split; reflexivity.
Qed.

(** *** The cursor invariant *)

Lemma cursor_kept_invariant (st st' : AudioPlayer) :
  cursor_kept st st' -> cursor_invariant st -> cursor_invariant st'.
Proof.
  intros (Hl & Hi & Hc). unfold cursor_invariant. now rewrite Hl, Hi, Hc.
Qed.

Lemma cursor_on_current_invariant (st : AudioPlayer) :
  cursor_on_current st -> cursor_invariant st.
Proof.
  intros (Hrange & p & Hnth & Hcur). split; [split|].
  - lia.
  - intros [Hnil | Hnone].
    + rewrite Hnil in Hrange. cbn in Hrange. lia.
    + exfalso. apply (Hnone p); [|exact Hcur]. eapply nth_error_In, Hnth.
  - intros _. split; [exact Hrange|]. now exists p.
Qed.

Lemma cursor_off_invariant (st : AudioPlayer) :
  cursor_off st -> cursor_invariant st.
Proof.
  intros (Hidx & Hnone). split; [split|].
  - intros _. now right.
  - intros _. exact Hidx.
  - congruence.
Qed.

Lemma list_index_cursor (x : string) (l : list string) :
  match list_index x l with
  | Some i => 0 <= i < Z.of_nat (List.length l) /\
              nth_error l (Z.to_nat i) = Some x
  | None => forall p, In p l -> Some x <> Some p
  end.
Proof.
  destruct (list_index x l) as [i|] eqn:Hi.
  - now apply list_index_Some.
  - intros p Hin [= ->]. apply list_index_None in Hi.
    apply list_in_In in Hin. congruence.
Qed.

Lemma playlist_file_double_clicked_run (fs : FileSystem) (file_path : string)
    (st : AudioPlayer) :
  match list_index file_path (playlist st) with
  | Some i =>
      exists st',
        playlist_file_double_clicked fs file_path st = Return tt st' /\
        current_index st' = i /\
        nth_error (playlist st) (Z.to_nat i) = Some file_path /\
        current_file_path st' = Some file_path /\
        player st' = mkPlayer (Some file_path) 0 PlayingState /\
        playlist st' = playlist st
  | None => playlist_file_double_clicked fs file_path st = Return tt st
  end.
Proof.
  unfold playlist_file_double_clicked, try_except_pass, try_except.
  pose proof (playlist_index_run file_path st) as Hpi.
  destruct (list_index file_path (playlist st)) as [i|] eqn:Hi.
  - destruct (list_index_Some _ _ _ Hi) as [Hrange Hnth].
    destruct (play_file_run fs file_path (set_current_index i st))
      as (st2 & Hplay & Hcur & Hplayer & _ & Hlist & Hidx & _).
    exists (set_current_row (current_index st2) st2).
    unfold bind at 1. rewrite Hpi.
    unfold playlist_getitem. run.
    replace (0 <=? i) with true by lia.
    replace (i <? Z.of_nat (List.length (playlist st))) with true by lia.
    cbn [andb playlist set_current_index].
    rewrite (getitem_in_range _ _ Hrange), Hnth.
    rewrite Hplay. cbn in *. repeat split; assumption.
  - unfold bind at 1. rewrite Hpi. reflexivity.
Qed.

Lemma double_click_cursor (fs : FileSystem) (file_path : string)
    (st : AudioPlayer) :
  exists st',
    playlist_file_double_clicked fs file_path st = Return tt st' /\
    (cursor_kept st st' \/ cursor_on_current st').
Proof.
  pose proof (playlist_file_double_clicked_run fs file_path st) as Hrun.
  destruct (list_index file_path (playlist st)) as [i|] eqn:Hi.
  - destruct Hrun as (st' & Hrun & Hidx & Hnth & Hcur & _ & Hlist).
    destruct (list_index_Some _ _ _ Hi) as [Hrange _].
    exists st'. split; [exact Hrun|]. right. unfold cursor_on_current.
    rewrite Hlist, Hidx. split; [exact Hrange|]. now exists file_path.
  - exists st. split; [exact Hrun|]. left. repeat split.
Qed.

Lemma play_next_cursor (fs : FileSystem) (st : AudioPlayer) :
  exists st',
    play_next fs st = Return tt st' /\
    (cursor_kept st st' \/ cursor_on_current st').
Proof.
  destruct (playlist st) as [|q l] eqn:Hpl.
  - exists st. split; [|left; repeat split].
    unfold play_next. run. now rewrite Hpl.
  - assert (Hne : playlist st <> []) by congruence.
    destruct (play_next_run fs st Hne) as (st' & p & Hrun & Hidx & Hnth & Hcur & _ & Hlist).
    exists st'. split; [exact Hrun|]. right. unfold cursor_on_current.
    rewrite Hlist. split; [|now exists p].
    rewrite Hidx. apply Z.mod_pos_bound. rewrite Hpl. cbn. lia.
Qed.

Lemma play_previous_cursor (fs : FileSystem) (st : AudioPlayer) :
  exists st',
    play_previous fs st = Return tt st' /\
    (cursor_kept st st' \/ cursor_on_current st').
Proof.
  destruct (playlist st) as [|q l] eqn:Hpl.
  - exists st. split; [|left; repeat split].
    unfold play_previous. run. now rewrite Hpl.
  - assert (Hne : playlist st <> []) by congruence.
    destruct (play_previous_run fs st Hne)
      as (st' & p & Hrun & Hidx & Hnth & Hcur & _ & Hlist).
    exists st'. split; [exact Hrun|]. right. unfold cursor_on_current.
    rewrite Hlist. split; [|now exists p].
    rewrite Hidx. apply Z.mod_pos_bound. rewrite Hpl. cbn. lia.
Qed.

Lemma open_file_cursor (fs : FileSystem) (file_path : string) (st : AudioPlayer) :
  exists st',
    open_file fs file_path st = Return tt st' /\
    (cursor_kept st st' \/ cursor_on_current st' \/ cursor_off st').
Proof.
  unfold open_file. destruct (nonempty file_path).
  - set (normalized := replace_sep (abspath file_path)).
    destruct (load_directory_to_playlist_run fs (dirname normalized)
                (set_last_dir (dirname file_path) st))
      as (st1 & Hload & Hlist1 & _).
    destruct (play_file_run fs normalized st1)
      as (st2 & Hplay & Hcur2 & _ & _ & Hlist2 & Hidx2 & _).
    unfold bind at 1. unfold modify at 1.
    unfold bind at 1. rewrite Hload.
    unfold bind at 1. rewrite Hplay.
    unfold bind at 1. unfold try_except. unfold bind at 1.
    rewrite playlist_index_run.
    pose proof (list_index_cursor normalized (playlist st2)) as Hix.
    destruct (list_index normalized (playlist st2)) as [i|].
    + eexists. split; [unfold save_settings; run; reflexivity|].
      right. left. destruct Hix as [Hrange Hnth].
      unfold cursor_on_current. fields_all. split; [exact Hrange|].
      exists normalized. split; [exact Hnth | exact Hcur2].
    + eexists. split; [unfold save_settings; run; reflexivity|].
      right. right. unfold cursor_off. fields_all. split; [reflexivity|].
      intros p Hin. rewrite Hcur2. now apply Hix.
  - exists st. split; [reflexivity|]. left. repeat split.
Qed.

Lemma reload_cursor (fs : FileSystem) (st : AudioPlayer) :
  exists st',
    reload_current_directory_playlist fs st = Return tt st' /\
    (cursor_kept st st' \/ cursor_on_current st' \/ cursor_off st').
Proof.
  unfold reload_current_directory_playlist.
  unfold bind at 1. unfold get at 1. unfold bind at 1.
  match goal with
  | |- context [match ?cd with Some d => _ | None => ret tt end st] =>
      destruct cd as [d|]
  end.
  - destruct (nonempty d && isdir fs d).
    + destruct (load_directory_to_playlist_run fs d st)
        as (st1 & Hload & Hlist1 & _ & Hcur1 & _).
      unfold bind at 1. rewrite Hload.
      unfold bind at 1. unfold get at 1.
      unfold current_in_playlist.
      destruct (current_file_path st1) as [p|] eqn:Hp.
      * pose proof (list_index_cursor p (playlist st1)) as Hix.
        destruct (list_in p (playlist st1)) eqn:Hin.
        -- unfold bind at 1. rewrite playlist_index_run.
           destruct (list_in_index _ _ Hin) as [i Hi]. rewrite Hi in *.
           destruct (is_playing (player st));
             (eexists; split; [unfold save_settings; run; reflexivity|]);
             right; left; unfold cursor_on_current; fields_all;
             (split; [apply Hix|]); exists p; (split; [apply Hix | exact Hp]).
        -- eexists. split; [unfold stop, save_settings; run; reflexivity|].
           right. right. unfold cursor_off. fields_all. split; [reflexivity|].
           discriminate.
      * eexists. split; [unfold stop, save_settings; run; reflexivity|].
        right. right. unfold cursor_off. fields_all. split; [reflexivity|].
        discriminate.
    + eexists. split; [unfold save_settings; run; reflexivity|].
      left. repeat split.
  - eexists. split; [unfold save_settings; run; reflexivity|].
    left. repeat split.
Qed.

Lemma change_audio_device_cursor (index : Z) (st : AudioPlayer) :
  exists st',
    change_audio_device index st = Return tt st' /\ cursor_kept st st'.
Proof.
  unfold change_audio_device. unfold bind at 1. unfold get at 1.
  destruct ((0 <=? index) && (index <? Z.of_nat (List.length (audio_devices st))))
    eqn:Hrange.
  - assert (Hr : 0 <= index < Z.of_nat (List.length (audio_devices st))) by lia.
    destruct (getitem_in_range_Some _ _ Hr) as (device & Hget & _).
    rewrite Hget. clear Hrange Hr Hget.
    destruct st as [ld ldd pm cfp pl ci cip pla ad ao wi cr geo sf].
    destruct cfp as [p|];
      [destruct pla as [src pos [| |]]; destruct (nonempty p) eqn:Hp|];
      unfold save_settings; run; fields; try rewrite Hp; fields;
      (eexists; split; [reflexivity|]); repeat split.
  - exists st. split; [reflexivity|]. repeat split.
Qed.

Lemma handle_cursor (fs : FileSystem) (ev : event) (st : AudioPlayer) :
  exists st',
    handle fs ev st = Return tt st' /\
    (cursor_kept st st' \/ cursor_on_current st' \/ cursor_off st').
Proof.
  destruct ev as [file_path| |file_path| | | | |pos|end_of_media|index|];
    cbn [handle].
  - apply open_file_cursor.
  - apply reload_cursor.
  - unfold item_double_clicked. destruct (nonempty file_path).
    + destruct (double_click_cursor fs file_path st) as (st' & Hrun & H).
      exists st'. tauto.
    + exists st. split; [reflexivity|]. left. repeat split.
  - destruct (play_previous_cursor fs st) as (st' & Hrun & H).
    exists st'. tauto.
  - destruct (play_next_cursor fs st) as (st' & Hrun & H).
    exists st'. tauto.
  - unfold play_pause. run. destruct (is_playing (player st));
      (eexists; split; [reflexivity|]); left; repeat split.
  - eexists. split; [reflexivity|]. left. repeat split.
  - eexists. split; [reflexivity|]. left. repeat split.
  - unfold handle_media_status_change. destruct end_of_media.
    + destruct (play_next_cursor fs st) as (st' & Hrun & H).
      exists st'. tauto.
    + exists st. split; [reflexivity|]. left. repeat split.
  - destruct (change_audio_device_cursor index st) as (st' & Hrun & H).
    exists st'. tauto.
  - eexists. split; [reflexivity|]. left. repeat split.
Qed.

Lemma init_cursor (fs : FileSystem) (ld ldd : string) (pm : list string)
    (cfp : option string) (devices : list string) (geom : string)
    (file : option string) :
  exists st,
    init fs ld ldd pm cfp devices geom file = Return tt st /\
    (cursor_on_current st \/ cursor_off st).
Proof.
  unfold init. destruct pm as [|q pm'].
  - eexists. split; [reflexivity|]. right. split; [reflexivity|].
    intros p [].
  - destruct cfp as [p|]; run; unfold current_in_playlist; fields.
    + destruct (list_in p (q :: pm')) eqn:Hin.
      * rewrite playlist_index_run. fields.
        destruct (list_in_index _ _ Hin) as [i Hi]. rewrite Hi.
        destruct (list_index_Some _ _ _ Hi) as [Hrange _].
        match goal with
        | |- context [playlist_file_double_clicked fs p ?s] =>
            pose proof (playlist_file_double_clicked_run fs p s) as Hdc
        end.
        fields_all. rewrite Hi in Hdc.
        destruct Hdc as (st' & Hrun & Hidx & Hnth & Hcur & _ & Hlist).
        rewrite Hrun. eexists. split; [reflexivity|]. left.
        unfold cursor_on_current. fields_all. rewrite Hlist, Hidx.
        split; [exact Hrange|].
        exists p. split; [exact Hnth | exact Hcur].
      * eexists. split; [reflexivity|]. right. split; [reflexivity|].
        fields. intros p' Hin' [= ->]. apply list_in_In in Hin'. congruence.
    + eexists. split; [reflexivity|]. right. split; [reflexivity|].
      discriminate.
Qed.

(** Handlers never raise: every event is answered by a state. *)
Lemma handle_returns (fs : FileSystem) (ev : event) (st : AudioPlayer) :
  exists st', handle fs ev st = Return tt st'.
Proof.
  destruct (handle_cursor fs ev st) as (st' & Hrun & _). now exists st'.
Qed.

(** C6. In every state the program reaches, the cursor is -1 exactly when
    the playlist is empty or no entry of it equals the current file path,
    and otherwise it is a valid index whose entry is the current file
    path. *)
Theorem cursor_invariant_holds (st : AudioPlayer) :
  reachable st -> cursor_invariant st.
Proof.
  induction 1 as [fs ld ldd pm cfp devices geom file st Hinit
                 |fs ev st st' Hreach IH Hstep].
  - destruct (init_cursor fs ld ldd pm cfp devices geom file)
      as (st1 & Hrun & Hcases).
    rewrite Hrun in Hinit. injection Hinit as <-.
    destruct Hcases; [now apply cursor_on_current_invariant
                     |now apply cursor_off_invariant].
  - destruct (handle_cursor fs ev st) as (st1 & Hrun & Hcases).
    rewrite Hrun in Hstep. injection Hstep as <-.
    destruct Hcases as [Hkept | [Hon | Hoff]].
    + now apply (cursor_kept_invariant st).
    + now apply cursor_on_current_invariant.
    + now apply cursor_off_invariant.
Qed.

(** *** Selecting by path *)

(** C7, as the code has it. [playlist_file_double_clicked] on a path in the
    playlist sets the cursor to the path's first index and plays it; on a
    path that is not in the playlist it returns normally and leaves the
    state as it was: the [ValueError] of [index] is caught, nothing is
    raised to the caller.  In both cases it returns nothing. *)
Theorem double_click_selects_or_ignores (fs : FileSystem) (file_path : string)
    (st : AudioPlayer) :
  match list_index file_path (playlist st) with
  | Some i =>
      exists st',
        playlist_file_double_clicked fs file_path st = Return tt st' /\
        current_index st' = i /\
        nth_error (playlist st) (Z.to_nat i) = Some file_path /\
        current_file_path st' = Some file_path /\
        player st' = mkPlayer (Some file_path) 0 PlayingState /\
        playlist st' = playlist st
  | None => playlist_file_double_clicked fs file_path st = Return tt st
  end.
Proof. exact (playlist_file_double_clicked_run fs file_path st). Qed.

End PlayerProperties.

(** * Further properties *)

(** ** The sort is determined by key order and stability *)

Section SortUniqueness.
Variable key : string -> string.

Lemma filter_key_head (x : string) (l : list string) :
  filter (fun p => (key p =? key x)%string) (x :: l) =
  x :: filter (fun p => (key p =? key x)%string) l.
Proof. cbn. now rewrite String.eqb_refl. Qed.

Lemma sorted_head_least (x y : string) (l : list string) :
  StronglySorted (key_le key) (y :: l) -> In x (y :: l) -> key_le key y x.
Proof.
  intros Hsorted [<- | Hin].
  - apply string_leb_refl.
  - apply StronglySorted_inv in Hsorted as [_ Hall].
    rewrite Forall_forall in Hall. now apply Hall.
Qed.

(** Two key-ordered lists that agree, key by key, on the sequence of their
    entries with that key are equal. *)
Lemma sorted_same_groups_eq (l1 l2 : list string) :
  StronglySorted (key_le key) l1 ->
  StronglySorted (key_le key) l2 ->
  (forall k, filter (fun p => (key p =? k)%string) l1 =
             filter (fun p => (key p =? k)%string) l2) ->
  l1 = l2.
Proof.
  revert l2. induction l1 as [|x l1 IH]; intros [|y l2] Hs1 Hs2 Hgroups.
  - reflexivity.
  - specialize (Hgroups (key y)). rewrite filter_key_head in Hgroups.
    discriminate Hgroups.
  - specialize (Hgroups (key x)). rewrite filter_key_head in Hgroups.
    discriminate Hgroups.
  - assert (Hx : In x (y :: l2)).
    { eapply (proj1 (filter_In _ x (y :: l2))).
      rewrite <- (Hgroups (key x)), filter_key_head. now left. }
    assert (Hy : In y (x :: l1)).
    { eapply (proj1 (filter_In _ y (x :: l1))).
      rewrite (Hgroups (key y)), filter_key_head. now left. }
    assert (Hkey : key x = key y).
    { apply String.leb_antisym.
      - exact (sorted_head_least y x l1 Hs1 Hy).
      - exact (sorted_head_least x y l2 Hs2 Hx). }
    assert (Hyx : (key y =? key x)%string = true)
      by (rewrite Hkey; apply String.eqb_refl).
    pose proof (Hgroups (key x)) as Hhead.
    cbn [filter] in Hhead. rewrite String.eqb_refl, Hyx in Hhead.
    injection Hhead as Hxy Htail. subst y. f_equal.
    apply IH.
    + now apply StronglySorted_inv in Hs1.
    + now apply StronglySorted_inv in Hs2.
    + intros k. destruct (key x =? k)%string eqn:Hk.
      * apply String.eqb_eq in Hk. subst k. exact Htail.
      * specialize (Hgroups k). cbn [filter] in Hgroups.
        now rewrite Hk in Hgroups.
Qed.

(** X1. The result of the sort is the only arrangement of the list that is
    ordered by key and keeps the entries of each key in their original
    order: any stable sort on the key gives this list. *)
Theorem stable_sort_unique (l sorted : list string) :
  StronglySorted (key_le key) sorted ->
  (forall k, filter (fun p => (key p =? k)%string) sorted =
             filter (fun p => (key p =? k)%string) l) ->
  sorted = sort_by_key key l.
Proof.
  intros Hsorted Hgroups. apply sorted_same_groups_eq.
  - exact Hsorted.
  - apply sort_by_key_sorted.
  - intros k. rewrite Hgroups. symmetry. apply sort_by_key_stable.
Qed.

(** X2. A list that is already ordered by key comes out of the sort
    unchanged. *)
Theorem sort_by_key_fixes_sorted (l : list string) :
  StronglySorted (key_le key) l -> sort_by_key key l = l.
Proof.
  intros Hsorted. symmetry. apply sorted_same_groups_eq.
  - exact Hsorted.
  - apply sort_by_key_sorted.
  - intros k. symmetry. apply sort_by_key_stable.
Qed.

End SortUniqueness.

(** ** The handlers in closed form *)

Section ClosedFormProperties.
Context {T : Toolkit}.

Ltac run := unfold bind, modify, get, ret, raise; cbv beta.

Lemma save_settings_effect (st : AudioPlayer) :
  save_settings st = Return tt (saved st).
Proof. reflexivity. Qed.

Lemma play_file_effect (fs : FileSystem) (file_path : string) (st : AudioPlayer) :
  play_file fs file_path st = Return tt (after_play_file fs file_path st).
Proof.
  unfold play_file. run. rewrite load_image_run. reflexivity.
Qed.

Lemma load_directory_to_playlist_effect (fs : FileSystem) (directory : string)
    (st : AudioPlayer) :
  load_directory_to_playlist fs directory st =
    Return tt (after_load_directory fs directory st).
Proof. reflexivity. Qed.

(** The tail shared by [play_next], [play_previous] and the double click. *)
Lemma play_at_cursor_effect (fs : FileSystem) (st : AudioPlayer) (i : Z)
    (p : string) :
  0 <= i < Z.of_nat (List.length (playlist st)) ->
  nth_error (playlist st) (Z.to_nat i) = Some p ->
  (st1 <- get ;;
   p <- playlist_getitem (current_index st1) ;;
   play_file fs p ;;;
   modify (fun st => set_current_row (current_index st) st))
    (set_current_index i st) = Return tt (moved_to fs i p st).
Proof.
  intros Hi Hnth. unfold playlist_getitem. run.
  change (playlist (set_current_index i st)) with (playlist st).
  change (current_index (set_current_index i st)) with i.
  rewrite (getitem_in_range _ _ Hi), Hnth, play_file_effect. reflexivity.
Qed.

Lemma play_next_effect (fs : FileSystem) (st : AudioPlayer) :
  playlist st <> [] ->
  let i := (current_index st + 1) mod Z.of_nat (List.length (playlist st)) in
  exists p,
    nth_error (playlist st) (Z.to_nat i) = Some p /\
    play_next fs st = Return tt (moved_to fs i p st).
Proof.
  intros Hne i.
  assert (Hi : 0 <= i < Z.of_nat (List.length (playlist st))).
  { apply Z.mod_pos_bound. destruct (playlist st); [congruence | cbn; lia]. }
  destruct (getitem_in_range_Some _ _ Hi) as (p & _ & Hnth).
  exists p. split; [exact Hnth|].
  rewrite <- (play_at_cursor_effect fs st i p Hi Hnth).
  unfold play_next. unfold bind at 1. unfold get at 1.
  destruct (playlist st) as [|q l] eqn:Hpl; [congruence|].
  unfold bind at 1. unfold modify at 1. rewrite Hpl. reflexivity.
Qed.

Lemma play_previous_effect (fs : FileSystem) (st : AudioPlayer) :
  playlist st <> [] ->
  let i := (current_index st - 1) mod Z.of_nat (List.length (playlist st)) in
  exists p,
    nth_error (playlist st) (Z.to_nat i) = Some p /\
    play_previous fs st = Return tt (moved_to fs i p st).
Proof.
  intros Hne i.
  assert (Hi : 0 <= i < Z.of_nat (List.length (playlist st))).
  { apply Z.mod_pos_bound. destruct (playlist st); [congruence | cbn; lia]. }
  destruct (getitem_in_range_Some _ _ Hi) as (p & _ & Hnth).
  exists p. split; [exact Hnth|].
  rewrite <- (play_at_cursor_effect fs st i p Hi Hnth).
  unfold play_previous. unfold bind at 1. unfold get at 1.
  destruct (playlist st) as [|q l] eqn:Hpl; [congruence|].
  unfold bind at 1. unfold modify at 1. rewrite Hpl. reflexivity.
Qed.

Lemma playlist_file_double_clicked_effect (fs : FileSystem) (file_path : string)
    (st : AudioPlayer) :
  playlist_file_double_clicked fs file_path st =
    Return tt (match list_index file_path (playlist st) with
               | Some i => moved_to fs i file_path st
               | None => st
               end).
Proof.
  unfold playlist_file_double_clicked, try_except_pass, try_except.
  unfold bind at 1. rewrite playlist_index_run.
  destruct (list_index file_path (playlist st)) as [i|] eqn:Hi; [|reflexivity].
  destruct (list_index_Some _ _ _ Hi) as [Hrange Hnth].
  unfold playlist_getitem. run.
  replace (0 <=? i) with true by lia.
  replace (i <? Z.of_nat (List.length (playlist st))) with true by lia.
  cbn [andb].
  change (playlist (set_current_index i st)) with (playlist st).
  rewrite (getitem_in_range _ _ Hrange), Hnth, play_file_effect. reflexivity.
Qed.

Lemma open_file_effect (fs : FileSystem) (file_path : string) (st : AudioPlayer) :
  open_file fs file_path st =
    Return tt (if nonempty file_path then after_open_file fs file_path st else st).
Proof.
  unfold open_file. destruct (nonempty file_path); [|reflexivity].
  unfold bind at 1. unfold modify at 1.
  unfold bind at 1. rewrite load_directory_to_playlist_effect.
  unfold bind at 1. rewrite play_file_effect.
  unfold bind at 1. unfold try_except. unfold bind at 1.
  rewrite playlist_index_run. unfold after_open_file.
  change (playlist (after_play_file fs (replace_sep (abspath file_path))
            (after_load_directory fs (dirname (replace_sep (abspath file_path)))
               (set_last_dir (dirname file_path) st))))
    with (scan fs (dirname (replace_sep (abspath file_path)))).
  destruct (list_index (replace_sep (abspath file_path))
              (scan fs (dirname (replace_sep (abspath file_path)))));
    reflexivity.
Qed.

Lemma reload_effect (fs : FileSystem) (st : AudioPlayer) :
  reload_current_directory_playlist fs st = Return tt (after_reload fs st).
Proof.
  unfold reload_current_directory_playlist, after_reload.
  unfold bind at 1. unfold get at 1. unfold bind at 1.
  change (match current_file_path st with
          | Some p => if nonempty p then Some (dirname p)
                      else if nonempty (last_dir st) then Some (last_dir st) else None
          | None => if nonempty (last_dir st) then Some (last_dir st) else None
          end) with (reload_directory st).
  destruct (reload_directory st) as [d|]; [|reflexivity].
  destruct (nonempty d && isdir fs d); [|reflexivity].
  unfold bind at 1. rewrite load_directory_to_playlist_effect.
  unfold bind at 1. unfold get at 1. unfold current_in_playlist.
  change (current_file_path (after_load_directory fs d st))
    with (current_file_path st).
  change (playlist (after_load_directory fs d st)) with (scan fs d).
  destruct (current_file_path st) as [p|] eqn:Hp; [|reflexivity].
  destruct (list_in p (scan fs d)) eqn:Hin.
  - unfold bind at 1. rewrite playlist_index_run.
    change (playlist (after_load_directory fs d st)) with (scan fs d).
    destruct (list_in_index _ _ Hin) as [i Hi]. rewrite Hi.
    change (player (after_load_directory fs d st)) with (player st).
    destruct (is_playing (player st)); reflexivity.
  - apply list_index_None in Hin. rewrite Hin. reflexivity.
Qed.

Lemma change_audio_device_effect (index : Z) (st : AudioPlayer) :
  change_audio_device index st =
    Return tt
      (if (0 <=? index) && (index <? Z.of_nat (List.length (audio_devices st)))
       then match nth_error (audio_devices st) (Z.to_nat index) with
            | Some device => after_change_audio_device device st
            | None => st
            end
       else st).
Proof.
  unfold change_audio_device. unfold bind at 1. unfold get at 1.
  destruct ((0 <=? index) && (index <? Z.of_nat (List.length (audio_devices st))))
    eqn:Hrange; [|reflexivity].
  assert (Hr : 0 <= index < Z.of_nat (List.length (audio_devices st))) by lia.
  destruct (getitem_in_range_Some _ _ Hr) as (device & Hget & Hnth).
  rewrite Hget, Hnth. unfold after_change_audio_device. run.
  change (current_file_path
            (set_audio_output (Some device) (set_last_device_desc device st)))
    with (current_file_path st).
  destruct (current_file_path st) as [p|]; [|reflexivity].
  change (player (set_audio_output (Some device) (set_last_device_desc device st)))
    with (player st).
  destruct (negb (is_stopped (player st)) && nonempty p); reflexivity.
Qed.

End ClosedFormProperties.

(** ** What the handlers do *)

Section HandlerProperties.
Context {T : Toolkit}.

Ltac run := unfold bind, modify, get, ret, raise; cbv beta.

Lemma play_next_empty (fs : FileSystem) (st : AudioPlayer) :
  playlist st = [] -> play_next fs st = Return tt st.
Proof. intros H. unfold play_next. run. now rewrite H. Qed.

Lemma play_previous_empty (fs : FileSystem) (st : AudioPlayer) :
  playlist st = [] -> play_previous fs st = Return tt st.
Proof. intros H. unfold play_previous. run. now rewrite H. Qed.

Lemma find_eqb_list_in (x : string) (l : list string) :
  find (fun d => (d =? x)%string) l = if list_in x l then Some x else None.
Proof.
  unfold list_in. induction l as [|y l IH]; cbn; [reflexivity|].
  destruct (y =? x)%string eqn:Hyx; cbn; [|exact IH].
  apply String.eqb_eq in Hyx. now subst.
Qed.

(** What [__init__] builds, field by field. *)
Lemma init_effect (fs : FileSystem) (ld ldd : string) (pm : list string)
    (cfp : option string) (devices : list string) (geom : string)
    (file : option string) :
  exists st,
    init fs ld ldd pm cfp devices geom file = Return tt st /\
    last_dir st = ld /\
    last_device_desc st = ldd /\
    playlist_memory st = pm /\
    playlist st = pm /\
    widget_items st = map (fun f => (basename f, f)) pm /\
    audio_devices st = devices /\
    audio_output st =
      match devices with
      | [] => None
      | d0 :: _ => if list_in ldd devices then Some ldd else Some d0
      end /\
    geometry st = geom /\
    match pm, cfp with
    | _ :: _, Some p =>
        match list_index p pm with
        | Some i =>
            current_index st = i /\
            current_file_path st = Some p /\
            player st = mkPlayer (Some p) 0 PlayingState /\
            settings_file st =
              Some (json_dump (SettingsStore.settings_dict (settings_of st) geom))
        | None =>
            current_index st = -1 /\
            current_file_path st = cfp /\
            player st = mkPlayer None 0 StoppedState /\
            settings_file st = file
        end
    | _, _ =>
        current_index st = -1 /\
        current_file_path st = cfp /\
        player st = mkPlayer None 0 StoppedState /\
        settings_file st = file
    end.
Proof.
  unfold init. rewrite find_eqb_list_in.
  assert (Hout : match devices with
                 | [] => None
                 | d0 :: _ =>
                     match (if list_in ldd devices then Some ldd else None) with
                     | Some d => Some d
                     | None => Some d0
                     end
                 end =
                 match devices with
                 | [] => None
                 | d0 :: _ => if list_in ldd devices then Some ldd else Some d0
                 end).
  { destruct devices; [reflexivity|]. now destruct (list_in ldd (_ :: _)). }
  rewrite Hout. clear Hout.
  destruct pm as [|q pm'].
  - eexists. split; [reflexivity|]. cbn. repeat split; reflexivity.
  - run. unfold current_in_playlist.
    destruct cfp as [p|].
    + cbn [current_file_path playlist set_playlist set_widget_items
           playlist_memory].
      pose proof (list_index_None p (q :: pm')) as Hnone.
      destruct (list_in p (q :: pm')) eqn:Hin.
      * rewrite playlist_index_run.
        cbn [current_file_path playlist set_playlist set_widget_items
             playlist_memory].
        destruct (list_in_index _ _ Hin) as [i Hi]. rewrite Hi.
        rewrite playlist_file_double_clicked_effect.
        cbn [current_file_path playlist set_playlist set_widget_items
             set_current_index playlist_memory].
        rewrite Hi.
        eexists. split; [reflexivity|]. cbn. repeat split; reflexivity.
      * rewrite (proj2 Hnone eq_refl).
        eexists. split; [reflexivity|]. cbn. repeat split; reflexivity.
    + eexists. split; [reflexivity|]. cbn. repeat split; reflexivity.
Qed.

(** X3. With attributes of the types the program itself writes (strings,
    a list of strings, a string or [None]), the lookups of [__init__]'s
    tail and of the handlers never fail towards the event loop: the
    [ValueError] of [list.index] is caught or never raised, no list is
    accessed outside its bounds ([IndexError]), and the modulo of
    [play_next] and [play_previous] is never taken on an empty playlist.
    Each call returns a state.  (Failures of the file system while the
    settings are written are not part of this statement.) *)
Theorem lookups_never_fail :
  (forall fs ld ldd pm cfp devices geom file,
     exists st, init fs ld ldd pm cfp devices geom file = Return tt st) /\
  (forall fs ev st, exists st', handle fs ev st = Return tt st').
Proof.
  split.
  - intros. destruct (init_effect fs ld ldd pm cfp devices geom file)
      as (st & Hrun & _). now exists st.
  - intros. destruct (handle_cursor fs ev st) as (st' & Hrun & _).
    now exists st'.
Qed.

(** X4. How [__init__] takes up the remembered session: the playlist is the
    remembered one; when the remembered file is in it, the cursor is its
    first index and the file plays from the start, and the settings are
    written; otherwise (no remembered file, or one that is not listed, or an
    empty remembered playlist) nothing is selected, nothing plays, the
    remembered path is kept as it is and the settings file is not
    touched. *)
Theorem init_restores_session (fs : FileSystem) (ld ldd : string)
    (pm : list string) (cfp : option string) (devices : list string)
    (geom : string) (file : option string) :
  exists st,
    init fs ld ldd pm cfp devices geom file = Return tt st /\
    playlist st = pm /\
    playlist_memory st = pm /\
    last_dir st = ld /\
    match pm, cfp with
    | _ :: _, Some p =>
        match list_index p pm with
        | Some i =>
            current_index st = i /\
            current_file_path st = Some p /\
            player st = mkPlayer (Some p) 0 PlayingState /\
            settings_file st =
              Some (json_dump (SettingsStore.settings_dict (settings_of st) geom))
        | None =>
            current_index st = -1 /\
            current_file_path st = cfp /\
            player st = mkPlayer None 0 StoppedState /\
            settings_file st = file
        end
    | _, _ =>
        current_index st = -1 /\
        current_file_path st = cfp /\
        player st = mkPlayer None 0 StoppedState /\
        settings_file st = file
    end.
Proof.
  destruct (init_effect fs ld ldd pm cfp devices geom file)
    as (st & Hrun & Hld & _ & Hpm & Hpl & _ & _ & _ & _ & Hcases).
  exists st. repeat split; assumption.
Qed.

(** X5. The output device [__init__] selects: none when no device is
    listed, the remembered device when one of that description is listed,
    the first listed device otherwise. *)
Theorem init_selects_output_device (fs : FileSystem) (ld ldd : string)
    (pm : list string) (cfp : option string) (devices : list string)
    (geom : string) (file : option string) :
  exists st,
    init fs ld ldd pm cfp devices geom file = Return tt st /\
    audio_devices st = devices /\
    last_device_desc st = ldd /\
    audio_output st =
      match devices with
      | [] => None
      | d0 :: _ => if list_in ldd devices then Some ldd else Some d0
      end.
Proof.
  destruct (init_effect fs ld ldd pm cfp devices geom file)
    as (st & Hrun & _ & Hldd & _ & _ & _ & Hdev & Hout & _).
  exists st. repeat split; assumption.
Qed.

(** The closed form of every handler. *)
Lemma handle_effect (fs : FileSystem) (ev : event) (st : AudioPlayer) :
  exists st',
    handle fs ev st = Return tt st' /\
    (st' = st \/
     st' = saved st \/
     (exists file_path, st' = after_open_file fs file_path st) \/
     st' = after_reload fs st \/
     (exists i p, nth_error (playlist st) (Z.to_nat i) = Some p /\
                  0 <= i < Z.of_nat (List.length (playlist st)) /\
                  st' = moved_to fs i p st) \/
     (exists pl, st' = set_player pl st) \/
     (exists device, In device (audio_devices st) /\
                     st' = after_change_audio_device device st)).
Proof.
  assert (Hnext : exists st',
    play_next fs st = Return tt st' /\
    (st' = st \/
     exists i p, nth_error (playlist st) (Z.to_nat i) = Some p /\
                 0 <= i < Z.of_nat (List.length (playlist st)) /\
                 st' = moved_to fs i p st)).
  { destruct (playlist st) as [|q l] eqn:Hpl.
    - exists st. split; [now apply play_next_empty | now left].
    - assert (Hne : playlist st <> []) by congruence.
      destruct (play_next_effect fs st Hne) as (p & Hnth & Hrun).
      eexists. split; [exact Hrun|]. right. eexists _, p.
      rewrite <- Hpl. split; [exact Hnth|]. split; [|reflexivity].
      apply Z.mod_pos_bound. rewrite Hpl. cbn. lia. }
  destruct ev as [file_path| |file_path| | | | |pos|end_of_media|index|];
    cbn [handle].
  - rewrite open_file_effect. eexists. split; [reflexivity|].
    destruct (nonempty file_path); [|now left].
    right. right. left. now exists file_path.
  - rewrite reload_effect. eexists. split; [reflexivity|]. tauto.
  - unfold item_double_clicked. destruct (nonempty file_path).
    + rewrite playlist_file_double_clicked_effect.
      eexists. split; [reflexivity|].
      destruct (list_index file_path (playlist st)) as [i|] eqn:Hi; [|now left].
      destruct (list_index_Some _ _ _ Hi) as [Hrange Hnth].
      do 4 right. left. now exists i, file_path.
    + exists st. split; [reflexivity | now left].
  - destruct (playlist st) as [|q l] eqn:Hpl.
    + exists st. split; [now apply play_previous_empty | now left].
    + assert (Hne : playlist st <> []) by congruence.
      destruct (play_previous_effect fs st Hne) as (p & Hnth & Hrun).
      eexists. split; [exact Hrun|]. do 4 right. left. eexists _, p.
      rewrite <- Hpl. split; [exact Hnth|]. split; [|reflexivity].
      apply Z.mod_pos_bound. rewrite Hpl. cbn. lia.
  - destruct Hnext as (st' & Hrun & Hcase). exists st'.
    split; [exact Hrun|]. destruct Hcase as [-> | H]; [now left | tauto].
  - unfold play_pause. run. eexists. split; [reflexivity|].
    do 5 right. left. destruct (is_playing (player st)); eexists; reflexivity.
  - eexists. split; [reflexivity|]. do 5 right. left. eexists. reflexivity.
  - eexists. split; [reflexivity|]. do 5 right. left. eexists. reflexivity.
  - unfold handle_media_status_change. destruct end_of_media.
    + destruct Hnext as (st' & Hrun & Hcase). exists st'.
      split; [exact Hrun|]. destruct Hcase as [-> | H]; [now left | tauto].
    + exists st. split; [reflexivity | now left].
  - rewrite change_audio_device_effect. eexists. split; [reflexivity|].
    destruct ((0 <=? index) &&
              (index <? Z.of_nat (List.length (audio_devices st)))); [|now left].
    destruct (nth_error (audio_devices st) (Z.to_nat index)) as [device|] eqn:Hd;
      [|now left].
    do 6 right. exists device. split; [|reflexivity].
    eapply nth_error_In, Hd.
  - eexists. split; [reflexivity|]. right. now left.
Qed.

(** X6. Every handler that changes [last_dir], [last_device_desc],
    [playlist_memory] or [current_file_path] has written the settings file
    when it returns: either the file holds the dump of the attributes of the
    returned state, or none of the four attributes nor the file has
    changed. *)
Theorem handlers_save_what_they_change (fs : FileSystem) (ev : event)
    (st : AudioPlayer) :
  exists st',
    handle fs ev st = Return tt st' /\
    (settings_file st' =
       Some (json_dump (SettingsStore.settings_dict (settings_of st') (geometry st')))
     \/
     (last_dir st' = last_dir st /\
      last_device_desc st' = last_device_desc st /\
      playlist_memory st' = playlist_memory st /\
      current_file_path st' = current_file_path st /\
      settings_file st' = settings_file st)).
Proof.
  destruct (handle_effect fs ev st) as (st' & Hrun & Hcases).
  exists st'. split; [exact Hrun|].
  destruct Hcases as
    [-> | [-> | [(fp & ->) | [-> | [(i & p & _ & _ & ->) | [(pl & ->) | (d & _ & ->)]]]]]].
  - right. repeat split.
  - now left.
  - now left.
  - now left.
  - now left.
  - right. repeat split.
  - now left.
Qed.

(** One step keeps the dialog and the remembered playlist on the
    playlist. *)
Lemma handle_dialog_lists_playlist (fs : FileSystem) (ev : event)
    (st st' : AudioPlayer) :
  handle fs ev st = Return tt st' ->
  dialog_lists_playlist st -> dialog_lists_playlist st'.
Proof.
  intros Hstep Hinv.
  destruct (handle_effect fs ev st) as (st1 & Hrun & Hcases).
  rewrite Hrun in Hstep. injection Hstep as <-.
  destruct Hcases as
    [-> | [-> | [(fp & ->) | [-> | [(i & p & _ & _ & ->) | [(pl & ->) | (d & _ & ->)]]]]]];
    try exact Hinv.
  - unfold dialog_lists_playlist, after_open_file.
    destruct (list_index _ _); split; reflexivity.
  - unfold dialog_lists_playlist, after_reload.
    destruct (reload_directory st) as [d|]; [|exact Hinv].
    destruct (nonempty d && isdir fs d); [|exact Hinv].
    destruct (current_file_path st) as [p|]; [|split; reflexivity].
    destruct (list_index p (scan fs d)); split; reflexivity.
  - unfold dialog_lists_playlist, after_change_audio_device.
    destruct (current_file_path st) as [p|]; [|exact Hinv].
    destruct (negb (is_stopped (player st)) && nonempty p); exact Hinv.
Qed.

(** X7. In every state the program reaches, the remembered playlist is the
    playlist, and the dialog lists the playlist's entries in order, each
    under its base name. *)
Theorem dialog_lists_playlist_holds (st : AudioPlayer) :
  reachable st ->
  playlist_memory st = playlist st /\
  widget_items st = map (fun f => (basename f, f)) (playlist st).
Proof.
  induction 1 as [fs ld ldd pm cfp devices geom file st Hinit
                 |fs ev st st' Hreach IH Hstep].
  - destruct (init_effect fs ld ldd pm cfp devices geom file)
      as (st1 & Hrun & _ & _ & Hpm & Hpl & Hitems & _).
    rewrite Hrun in Hinit. injection Hinit as <-.
    rewrite Hpm, Hpl. split; [reflexivity | exact Hitems].
  - exact (handle_dialog_lists_playlist fs ev st st' Hstep IH).
Qed.

(** X8. On an empty playlist, [play_next], [play_previous] and the end of
    the media leave the state as it is; nothing is divided by the length. *)
Theorem navigation_on_empty_playlist (fs : FileSystem) (st : AudioPlayer) :
  playlist st = [] ->
  play_next fs st = Return tt st /\
  play_previous fs st = Return tt st /\
  handle_media_status_change fs true st = Return tt st.
Proof.
  intros Hempty. repeat split.
  - now apply play_next_empty.
  - now apply play_previous_empty.
  - now apply play_next_empty.
Qed.

(** X9. From a cursor that is a valid index, [play_previous] after
    [play_next], and [play_next] after [play_previous], put the cursor back
    where it was, with the entry there as the current file, playing from the
    start. *)
Theorem next_and_previous_are_inverse (fs : FileSystem) (st : AudioPlayer) :
  playlist st <> [] ->
  0 <= current_index st < Z.of_nat (List.length (playlist st)) ->
  exists p,
    nth_error (playlist st) (Z.to_nat (current_index st)) = Some p /\
    (exists st1 st2,
       play_next fs st = Return tt st1 /\
       play_previous fs st1 = Return tt st2 /\
       current_index st2 = current_index st /\
       current_file_path st2 = Some p /\
       player st2 = mkPlayer (Some p) 0 PlayingState /\
       playlist st2 = playlist st) /\
    (exists st1 st2,
       play_previous fs st = Return tt st1 /\
       play_next fs st1 = Return tt st2 /\
       current_index st2 = current_index st /\
       current_file_path st2 = Some p /\
       player st2 = mkPlayer (Some p) 0 PlayingState /\
       playlist st2 = playlist st).
Proof.
  intros Hne Hc.
  assert (HN : 0 < Z.of_nat (List.length (playlist st))) by lia.
  destruct (getitem_in_range_Some _ _ Hc) as (p & _ & Hp).
  exists p. split; [exact Hp|]. split.
  - destruct (play_next_run fs st Hne)
      as (st1 & p1 & Hrun1 & Hidx1 & _ & _ & _ & Hlist1).
    assert (Hne1 : playlist st1 <> []) by now rewrite Hlist1.
    destruct (play_previous_run fs st1 Hne1)
      as (st2 & p2 & Hrun2 & Hidx2 & Hnth2 & Hcur2 & Hplayer2 & Hlist2).
    assert (Hback : current_index st2 = current_index st).
    { rewrite Hidx2, Hidx1, Hlist1, Zminus_mod_idemp_l.
      replace (current_index st + 1 - 1) with (current_index st) by lia.
      now apply Z.mod_small. }
    rewrite Hback, Hlist1, Hp in Hnth2. injection Hnth2 as <-.
    exists st1, st2. repeat split; try assumption. congruence.
  - destruct (play_previous_run fs st Hne)
      as (st1 & p1 & Hrun1 & Hidx1 & _ & _ & _ & Hlist1).
    assert (Hne1 : playlist st1 <> []) by now rewrite Hlist1.
    destruct (play_next_run fs st1 Hne1)
      as (st2 & p2 & Hrun2 & Hidx2 & Hnth2 & Hcur2 & Hplayer2 & Hlist2).
    assert (Hback : current_index st2 = current_index st).
    { rewrite Hidx2, Hidx1, Hlist1, Z.add_mod_idemp_l by lia.
      replace (current_index st - 1 + 1) with (current_index st) by lia.
      now apply Z.mod_small. }
    rewrite Hback, Hlist1, Hp in Hnth2. injection Hnth2 as <-.
    exists st1, st2. repeat split; try assumption. congruence.
Qed.

(** X10. When the media ends on the last entry of the playlist, the first
    entry is selected and played: the playlist loops.  A status other than
    the end of the media changes nothing. *)
Theorem end_of_media_wraps_to_first (fs : FileSystem) (st : AudioPlayer) :
  playlist st <> [] ->
  current_index st = Z.of_nat (List.length (playlist st)) - 1 ->
  (exists st' first,
     handle_media_status_change fs true st = Return tt st' /\
     current_index st' = 0 /\
     nth_error (playlist st) 0 = Some first /\
     current_file_path st' = Some first /\
     player st' = mkPlayer (Some first) 0 PlayingState /\
     playlist st' = playlist st) /\
  handle_media_status_change fs false st = Return tt st.
Proof.
  intros Hne Hlast. split; [|reflexivity].
  assert (HN : 0 < Z.of_nat (List.length (playlist st)))
    by (destruct (playlist st); [congruence | cbn; lia]).
  destruct (play_next_run fs st Hne)
    as (st' & p & Hrun & Hidx & Hnth & Hcur & Hplayer & Hlist).
  rewrite Hlast in Hidx.
  replace (Z.of_nat (List.length (playlist st)) - 1 + 1)
    with (Z.of_nat (List.length (playlist st))) in Hidx by lia.
  rewrite Z.mod_same in Hidx by lia.
  rewrite Hidx in Hnth.
  exists st', p. repeat split; assumption.
Qed.

(** X11. [change_audio_device] with an index outside the device list does
    nothing: no device is selected and nothing is saved. *)
Theorem change_audio_device_out_of_range (index : Z) (st : AudioPlayer) :
  index < 0 \/ Z.of_nat (List.length (audio_devices st)) <= index ->
  change_audio_device index st = Return tt st.
Proof.
  intros Hout. rewrite change_audio_device_effect.
  replace ((0 <=? index) && (index <? Z.of_nat (List.length (audio_devices st))))
    with false by lia.
  reflexivity.
Qed.

(** X12. [change_audio_device] with the index of a listed device makes it
    the output and the remembered device and writes the settings; playlist,
    cursor and current file stay.  When the player is not stopped and a file
    is current, the file plays on the new output from the position it had,
    also when it was paused before; a stopped player is left alone. *)
Theorem change_audio_device_in_range (index : Z) (device : string)
    (st : AudioPlayer) :
  0 <= index ->
  nth_error (audio_devices st) (Z.to_nat index) = Some device ->
  exists st',
    change_audio_device index st = Return tt st' /\
    last_device_desc st' = device /\
    audio_output st' = Some device /\
    playlist st' = playlist st /\
    current_index st' = current_index st /\
    current_file_path st' = current_file_path st /\
    settings_file st' =
      Some (json_dump (SettingsStore.settings_dict (settings_of st') (geometry st'))) /\
    player st' =
      match current_file_path st with
      | Some p =>
          if negb (is_stopped (player st)) && nonempty p
          then mkPlayer (Some p) (position (player st)) PlayingState
          else player st
      | None => player st
      end.
Proof.
  intros H0 Hnth.
  assert (Hlt : index < Z.of_nat (List.length (audio_devices st))).
  { assert (Hsome : nth_error (audio_devices st) (Z.to_nat index) <> None)
      by congruence.
    apply nth_error_Some in Hsome. lia. }
  rewrite change_audio_device_effect.
  replace ((0 <=? index) && (index <? Z.of_nat (List.length (audio_devices st))))
    with true by lia.
  rewrite Hnth. eexists. split; [reflexivity|].
  unfold after_change_audio_device.
  destruct (current_file_path st) as [p|] eqn:Hp;
    [destruct (negb (is_stopped (player st)) && nonempty p)|];
    repeat split; try reflexivity; exact Hp.
Qed.

(** X13. [open_file] with a chosen file remembers its directory, replaces
    the playlist by the scan of that directory, plays the file from the
    start and writes the settings; the cursor is the file's index in the scan
    and -1 when the scan does not list it, in which case the file plays all
    the same.  With a cancelled dialog nothing happens. *)
Theorem open_file_opens (fs : FileSystem) (file_path : string) (st : AudioPlayer) :
  let normalized := replace_sep (abspath file_path) in
  exists st',
    open_file fs file_path st = Return tt st' /\
    if nonempty file_path then
      last_dir st' = dirname file_path /\
      playlist st' = scan fs (dirname normalized) /\
      playlist_memory st' = scan fs (dirname normalized) /\
      current_file_path st' = Some normalized /\
      player st' = mkPlayer (Some normalized) 0 PlayingState /\
      current_index st' =
        match list_index normalized (scan fs (dirname normalized)) with
        | Some i => i
        | None => -1
        end /\
      settings_file st' =
        Some (json_dump (SettingsStore.settings_dict (settings_of st') (geometry st')))
    else st' = st.
Proof.
  intros normalized. rewrite open_file_effect. eexists. split; [reflexivity|].
  destruct (nonempty file_path); [|reflexivity].
  unfold after_open_file. fold normalized.
  destruct (list_index normalized (scan fs (dirname normalized)));
    repeat split; reflexivity.
Qed.

(** X14. When the directory of the current file is not a directory any
    more, the refresh rescans nothing: playlist, cursor, current file and
    player stay as they are, and the settings are written. *)
Theorem reload_without_directory (fs : FileSystem) (st : AudioPlayer)
    (P : string) :
  current_file_path st = Some P ->
  nonempty P = true ->
  isdir fs (dirname P) = false ->
  exists st',
    reload_current_directory_playlist fs st = Return tt st' /\
    playlist st' = playlist st /\
    current_index st' = current_index st /\
    current_file_path st' = Some P /\
    player st' = player st /\
    settings_file st' =
      Some (json_dump (SettingsStore.settings_dict (settings_of st') (geometry st'))).
Proof.
  intros Hcur HP Hdir. rewrite reload_effect. eexists. split; [reflexivity|].
  unfold after_reload, reload_directory. rewrite Hcur, HP, Hdir.
  rewrite andb_false_r. repeat split; try reflexivity. exact Hcur.
Qed.

(** X15. A refresh that finds the current file again while the player is
    not playing (paused or stopped) keeps the selection, the cursor being
    the file's first index in the new playlist, and leaves the player
    stopped on that file at position 0: the position is kept only for a
    playing player. *)
Theorem reload_when_not_playing_resets_position (fs : FileSystem)
    (st : AudioPlayer) (P : string) :
  current_file_path st = Some P ->
  nonempty P = true ->
  nonempty (dirname P) = true ->
  isdir fs (dirname P) = true ->
  list_in P (scan fs (dirname P)) = true ->
  is_playing (player st) = false ->
  exists st',
    reload_current_directory_playlist fs st = Return tt st' /\
    current_file_path st' = Some P /\
    playlist st' = scan fs (dirname P) /\
    list_index P (playlist st') = Some (current_index st') /\
    0 <= current_index st' < Z.of_nat (List.length (playlist st')) /\
    nth_error (playlist st') (Z.to_nat (current_index st')) = Some P /\
    getitem (playlist st') (current_index st') = Some P /\
    player st' = mkPlayer (Some P) 0 StoppedState.
Proof.
  intros Hcur HP Hd Hdir Hin Hplaying.
  rewrite reload_effect. eexists. split; [reflexivity|].
  unfold after_reload, reload_directory. rewrite Hcur, HP, Hd, Hdir, Hplaying.
  cbn [andb].
  destruct (list_in_index _ _ Hin) as [i Hi]. rewrite Hi.
  destruct (list_index_Some _ _ _ Hi) as [Hrange Hnth].
  split; [exact Hcur|]. split; [reflexivity|].
  split; [exact Hi|]. split; [exact Hrange|]. split; [exact Hnth|].
  split; [|reflexivity].
  change (getitem (scan fs (dirname P)) i = Some P).
  now rewrite (getitem_in_range _ _ Hrange).
Qed.

(** X16. With no current file, the refresh scans the directory last opened
    from: the playlist becomes its scan, nothing is selected and the player
    is stopped. *)
Theorem reload_from_last_directory (fs : FileSystem) (st : AudioPlayer) :
  current_file_path st = None ->
  nonempty (last_dir st) = true ->
  isdir fs (last_dir st) = true ->
  exists st',
    reload_current_directory_playlist fs st = Return tt st' /\
    playlist st' = scan fs (last_dir st) /\
    playlist_memory st' = scan fs (last_dir st) /\
    current_index st' = -1 /\
    current_file_path st' = None /\
    playbackState (player st') = StoppedState /\
    settings_file st' =
      Some (json_dump (SettingsStore.settings_dict (settings_of st') (geometry st'))).
Proof.
  intros Hcur Hld Hdir. rewrite reload_effect. eexists. split; [reflexivity|].
  unfold after_reload, reload_directory. rewrite Hcur, Hld. cbv beta iota.
  rewrite Hld, Hdir. cbn [andb]. repeat split; reflexivity.
Qed.

End HandlerProperties.

(** ** More on [load_settings] *)

Section LoadProperties.
Context {T : Toolkit}.
Import SettingsStore.

Lemma dict_get_missing (d : list (string * json)) (key : string)
    (default : json) :
  ~ In key (map fst d) -> dict_get d key default = default.
Proof.
  induction d as [|[k v] d IH]; cbn; [reflexivity|].
  intros Hnot. destruct (k =? key)%string eqn:Hk.
  - apply String.eqb_eq in Hk. exfalso. apply Hnot. now left.
  - apply IH. intros Hin. apply Hnot. now right.
Qed.

(** X17. Each attribute is read under its own key and falls back to its
    default when the key is missing: a settings object with none of the five
    keys gives an empty [last_dir] and [last_device_desc], an empty
    [playlist_memory] and no [current_file_path], whatever these held before,
    and leaves [window_geometry] as it was. *)
Theorem load_settings_missing_keys (text : string) (d : list (string * json))
    (s : Settings) :
  json_load text = inl (JObj d) ->
  (forall key, In key ["last_dir"; "last_device_desc"; "playlist_memory";
                       "current_file_path"; "window_geometry"] ->
               ~ In key (map fst d)) ->
  load_settings (Some text) s =
    Return tt (mkSettings (JStr "") (JStr "") (JArr []) JNull (window_geometry s)).
Proof.
  intros Hload Hmissing.
  unfold load_settings, try_except_pass, try_except. rewrite Hload.
  unfold assign_from, bind, modify, ret.
  rewrite !dict_get_missing by (apply Hmissing; cbn; tauto).
  reflexivity.
Qed.

(** X18. A settings object whose [window_geometry] is true in Python's
    sense without being a string (a number other than 0, [true], a non-empty
    list or object) makes [load_settings] raise [AttributeError], and the
    four other attributes have been overwritten from the file by then. *)
Theorem load_settings_raises_after_partial_update (text : string)
    (d : list (string * json)) (geometry_base64 : json) (s : Settings) :
  json_load text = inl (JObj d) ->
  dict_get d "window_geometry" JNull = geometry_base64 ->
  truthy geometry_base64 = true ->
  (forall b64, geometry_base64 <> JStr b64) ->
  load_settings (Some text) s =
    Raise AttributeError
      (mkSettings (dict_get d "last_dir" (JStr ""))
         (dict_get d "last_device_desc" (JStr ""))
         (dict_get d "playlist_memory" (JArr []))
         (dict_get d "current_file_path" JNull)
         (window_geometry s)).
Proof.
  intros Hload Hgeo Htrue Hshape.
  unfold load_settings, try_except_pass, try_except. rewrite Hload.
  unfold assign_from, bind, modify, ret, raise. rewrite Hgeo, Htrue.
  destruct geometry_base64; try reflexivity.
  exfalso. eapply Hshape. reflexivity.
Qed.

(** X19. The fifth attribute across a save and a load: [window_geometry]
    becomes the bytes decoded from the base64 text that was saved for the
    window's geometry, and is left as it was when that text is empty;
    provided [json.load] reads the dumped document back. *)
Theorem save_then_load_window_geometry (s s0 : Settings) (geometry : string)
    (file : option string) :
  json_load (json_dump (settings_dict s geometry)) = inl (settings_dict s geometry) ->
  exists s',
    load_settings (save_settings s geometry file) s0 = Return tt s' /\
    window_geometry s' =
      if (toBase64 geometry =? "")%string then window_geometry s0
      else Some (fromBase64 (toBase64 geometry)).
Proof.
  intros Hcodec. unfold save_settings, save_upto.
  eexists. split.
  - eapply load_settings_object; [exact Hcodec | reflexivity].
  - cbn. now destruct (toBase64 geometry =? "")%string.
Qed.

End LoadProperties.
(** * Examples on the reference instance *)

Import Examples.
#[local] Existing Instance Reference.toolkit.

Example st_unselected_reachable : reachable st_unselected.
Proof.
  eapply (reachable_init fs_m "/m" "Speakers" ["/m/a.mp3"; "/m/b.mp3"] None
            ["Headphones"; "Speakers"] "geo" None).
  reflexivity.
Qed.

Example st_playing_b_reachable : reachable st_playing_b.
Proof.
  eapply (reachable_step fs_m (SliderMoved 5000) st_on_b).
  - eapply (reachable_init fs_m "/m" "Speakers" ["/m/a.mp3"; "/m/b.mp3"]
              (Some "/m/b.mp3") ["Headphones"; "Speakers"] "geo" None).
    vm_compute. reflexivity.
  - reflexivity.
Qed.

Example st_playing_b_fields :
  playlist st_playing_b = ["/m/a.mp3"; "/m/b.mp3"] /\
  current_index st_playing_b = 1 /\
  current_file_path st_playing_b = Some "/m/b.mp3" /\
  player st_playing_b = mkPlayer (Some "/m/b.mp3") 5000 PlayingState /\
  current_image_path st_playing_b = None.
Proof. vm_compute. repeat split; reflexivity. Qed.

(** An instance of C1 on the reference encoder and decoder. *)
Lemma save_then_load_roundtrip_witness :
  exists s',
    SettingsStore.load_settings
      (SettingsStore.save_settings settings_a "geo" None) SettingsStore.defaults
      = Return tt s' /\
    SettingsStore.last_dir s' = JStr "/m" /\
    SettingsStore.last_device_desc s' = JStr "Speakers" /\
    SettingsStore.playlist_memory s' = JArr [JStr "/m/a.mp3"; JStr "/m/b.mp3"] /\
    SettingsStore.current_file_path s' = JStr "/m/b.mp3".
Proof.
  apply (@save_then_load_roundtrip Reference.toolkit settings_a
           SettingsStore.defaults "geo" None).
  vm_compute. reflexivity.
Defined.

(** The failing input of C2: a settings file that holds an empty JSON
    array. *)
Lemma load_settings_raises_on_non_object_witness :
  SettingsStore.load (Some "[]") = Raise AttributeError SettingsStore.defaults.
Proof.
  apply (@load_settings_raises_on_non_object Reference.toolkit "[]" (JArr [])).
  - vm_compute. reflexivity.
  - intros d H. discriminate H.
Defined.

(** C8, counterexample. A save interrupted right after the file was opened
    for writing leaves an empty file where a valid one was, and the next
    start reads the defaults from it. *)
Lemma interrupted_save_loses_previous_file :
  let previous := json_dump (SettingsStore.settings_dict settings_a "geo") in
  SettingsStore.interrupted (SettingsStore.Written 0) = true /\
  SettingsStore.save_upto (SettingsStore.Written 0) settings_b "geo" (Some previous)
    = Some EmptyString /\
  Some EmptyString <> Some previous /\
  SettingsStore.load (Some EmptyString) = Return tt SettingsStore.defaults.
Proof.
  vm_compute. repeat split; try reflexivity. intros H. discriminate H.
Qed.


(** C4, counterexample. From the cursor -1 on a playlist of two tracks, two
    calls of [play_next], and two of [play_previous], leave the cursor on 1,
    not on -1. *)
Lemma wraparound_fails_from_no_selection :
  current_index st_unselected = -1 /\
  List.length (playlist st_unselected) = 2%nat /\
  (exists st', repeat_call 2 (play_next fs_m) st_unselected = Return tt st' /\
               current_index st' = 1 /\
               current_index st' <> current_index st_unselected) /\
  (exists st', repeat_call 2 (play_previous fs_m) st_unselected = Return tt st' /\
               current_index st' = 1 /\
               current_index st' <> current_index st_unselected).
Proof.
  split; [reflexivity|]. split; [reflexivity|].
  split; (eexists; split; [vm_compute; reflexivity|]);
    (split; [reflexivity | discriminate]).
Qed.

(** An instance of C4 as amended: from index 1 of two tracks. *)
Lemma next_previous_wraparound_witness :
  (exists st', play_next fs_m st_playing_b = Return tt st' /\
               current_index st' = (1 + 1) mod 2) /\
  (exists st', play_previous fs_m st_playing_b = Return tt st' /\
               current_index st' = (1 - 1) mod 2) /\
  (exists st', repeat_call 2 (play_next fs_m) st_playing_b = Return tt st' /\
               current_index st' = 1) /\
  (exists st', repeat_call 2 (play_previous fs_m) st_playing_b = Return tt st' /\
               current_index st' = 1).
Proof.
  apply (next_previous_wraparound fs_m st_playing_b).
  - vm_compute. discriminate.
  - vm_compute. split; [discriminate | reflexivity].
Defined.

(** An instance of C5: [b.mp3] is playing at five seconds; after a refresh
    that finds it again it plays on from there, after one that does not it
    is stopped and deselected. *)
Lemma reload_keeps_selection_or_resets_witness :
  (exists st',
     reload_current_directory_playlist fs_m st_playing_b = Return tt st' /\
     playlist st' = ["/m/a.mp3"; "/m/b.mp3"] /\
     current_index st' = 1 /\
     getitem (playlist st') (current_index st') = Some "/m/b.mp3" /\
     current_file_path st' = Some "/m/b.mp3" /\
     position (player st') = 5000 /\
     playbackState (player st') = PlayingState) /\
  (exists st',
     reload_current_directory_playlist fs_m_without_b st_playing_b = Return tt st' /\
     playlist st' = ["/m/a.mp3"] /\
     playbackState (player st') = StoppedState /\
     current_index st' = -1 /\
     current_file_path st' = None).
Proof.
  assert (Hcur : current_file_path st_playing_b = Some "/m/b.mp3")
    by (vm_compute; reflexivity).
  assert (HP : nonempty "/m/b.mp3" = true) by (vm_compute; reflexivity).
  assert (Hd : nonempty (dirname "/m/b.mp3") = true) by (vm_compute; reflexivity).
  assert (Hdir : isdir fs_m (dirname "/m/b.mp3") = true)
    by (vm_compute; reflexivity).
  assert (Hdir' : isdir fs_m_without_b (dirname "/m/b.mp3") = true)
    by (vm_compute; reflexivity).
  split.
  - destruct (reload_keeps_selection_or_resets fs_m st_playing_b "/m/b.mp3"
                Hcur HP Hd Hdir)
      as (st' & Hrun & Hlist & Hpresent & _).
    destruct Hpresent as (Hindex & _ & _ & Hget & Hcur' & _ & Hplaying);
      [vm_compute; reflexivity|].
    destruct Hplaying as (Hpos & Hstate); [vm_compute; reflexivity|].
    assert (Hone : current_index st' = 1).
    { rewrite Hlist in Hindex. vm_compute in Hindex. congruence. }
    exists st'. repeat split; assumption.
  - destruct (reload_keeps_selection_or_resets fs_m_without_b st_playing_b
                "/m/b.mp3" Hcur HP Hd Hdir')
      as (st' & Hrun & Hlist & _ & Habsent).
    destruct Habsent as (Hstate & Hidx & Hcur'); [vm_compute; reflexivity|].
    exists st'. repeat split; assumption.
Defined.

(** An instance of C6, on the state five seconds into [b.mp3]. *)
Lemma cursor_invariant_holds_witness : cursor_invariant st_playing_b.
Proof.
  apply cursor_invariant_holds.
  eapply (reachable_step fs_m (SliderMoved 5000) st_on_b).
  - eapply (reachable_init fs_m "/m" "Speakers" ["/m/a.mp3"; "/m/b.mp3"]
              (Some "/m/b.mp3") ["Headphones"; "Speakers"] "geo" None).
    vm_compute. reflexivity.
  - reflexivity.
Defined.

(** C7, counterexample. Selecting a path that is not in the playlist
    returns normally and changes nothing; no error reaches the caller. *)
Lemma double_click_on_absent_path_returns :
  list_in "/m/zzz.mp3" (playlist st_unselected) = false /\
  playlist_file_double_clicked fs_m "/m/zzz.mp3" st_unselected
    = Return tt st_unselected /\
  forall e st', playlist_file_double_clicked fs_m "/m/zzz.mp3" st_unselected
                  <> Raise e st'.
Proof.
  assert (H : playlist_file_double_clicked fs_m "/m/zzz.mp3" st_unselected
              = Return tt st_unselected) by (vm_compute; reflexivity).
  split; [vm_compute; reflexivity|]. split; [exact H|].
  intros e st'. rewrite H. discriminate.
Qed.

(** An instance of C10, on two tracks with no selection: [play_next] goes
    to index 0, [play_previous] to index 0 as well, the second-to-last. *)
Lemma next_previous_from_no_selection_witness :
  (exists st' first,
     play_next fs_m st_unselected = Return tt st' /\
     current_index st' = 0 /\
     nth_error (playlist st_unselected) 0 = Some first /\
     current_file_path st' = Some first /\
     player st' = mkPlayer (Some first) 0 PlayingState) /\
  (exists st' p,
     play_previous fs_m st_unselected = Return tt st' /\
     current_index st' = (2 - 2) mod 2 /\
     nth_error (playlist st_unselected) (Z.to_nat ((2 - 2) mod 2)) = Some p /\
     current_file_path st' = Some p /\
     (2 <= 2 -> current_index st' = 2 - 2 /\ current_index st' <> 2 - 1)).
Proof.
  apply (next_previous_from_no_selection fs_m st_unselected).
  - vm_compute. discriminate.
  - reflexivity.
Defined.

(** ** Instances of the further properties *)

Lemma stable_sort_unique_witness :
  ["/m/a.mp3"; "/m/b.mp3"] = sort_by_key sort_key ["/m/b.mp3"; "/m/a.mp3"].
Proof.
  apply (stable_sort_unique sort_key ["/m/b.mp3"; "/m/a.mp3"]
           ["/m/a.mp3"; "/m/b.mp3"]).
  - repeat constructor; vm_compute; reflexivity.
  - intros k. cbn [filter].
    change (sort_key "/m/a.mp3") with "a.mp3".
    change (sort_key "/m/b.mp3") with "b.mp3".
    destruct (String.eqb_spec "a.mp3" k), (String.eqb_spec "b.mp3" k);
      subst; try reflexivity; discriminate.
Defined.

Lemma sort_by_key_fixes_sorted_witness :
  sort_by_key sort_key ["/m/a.mp3"; "/m/b.mp3"] = ["/m/a.mp3"; "/m/b.mp3"].
Proof.
  apply (sort_by_key_fixes_sorted sort_key).
  repeat constructor; vm_compute; reflexivity.
Defined.

Lemma dialog_lists_playlist_holds_witness :
  playlist_memory st_playing_b = playlist st_playing_b /\
  widget_items st_playing_b =
    map (fun f => (basename f, f)) (playlist st_playing_b).
Proof.
  apply dialog_lists_playlist_holds.
  eapply (reachable_step fs_m (SliderMoved 5000) st_on_b).
  - eapply (reachable_init fs_m "/m" "Speakers" ["/m/a.mp3"; "/m/b.mp3"]
              (Some "/m/b.mp3") ["Headphones"; "Speakers"] "geo" None).
    vm_compute. reflexivity.
  - reflexivity.
Defined.

Lemma navigation_on_empty_playlist_witness :
  play_next fs_m st_empty = Return tt st_empty /\
  play_previous fs_m st_empty = Return tt st_empty /\
  handle_media_status_change fs_m true st_empty = Return tt st_empty.
Proof.
  apply (navigation_on_empty_playlist fs_m st_empty). reflexivity.
Defined.

Lemma next_and_previous_are_inverse_witness :
  exists p,
    nth_error (playlist st_playing_b) (Z.to_nat (current_index st_playing_b))
      = Some p /\
    (exists st1 st2,
       play_next fs_m st_playing_b = Return tt st1 /\
       play_previous fs_m st1 = Return tt st2 /\
       current_index st2 = current_index st_playing_b /\
       current_file_path st2 = Some p /\
       player st2 = mkPlayer (Some p) 0 PlayingState /\
       playlist st2 = playlist st_playing_b) /\
    (exists st1 st2,
       play_previous fs_m st_playing_b = Return tt st1 /\
       play_next fs_m st1 = Return tt st2 /\
       current_index st2 = current_index st_playing_b /\
       current_file_path st2 = Some p /\
       player st2 = mkPlayer (Some p) 0 PlayingState /\
       playlist st2 = playlist st_playing_b).
Proof.
  apply (next_and_previous_are_inverse fs_m st_playing_b).
  - vm_compute. discriminate.
  - vm_compute. split; [discriminate | reflexivity].
Defined.

Lemma end_of_media_wraps_to_first_witness :
  (exists st' first,
     handle_media_status_change fs_m true st_playing_b = Return tt st' /\
     current_index st' = 0 /\
     nth_error (playlist st_playing_b) 0 = Some first /\
     current_file_path st' = Some first /\
     player st' = mkPlayer (Some first) 0 PlayingState /\
     playlist st' = playlist st_playing_b) /\
  handle_media_status_change fs_m false st_playing_b = Return tt st_playing_b.
Proof.
  apply (end_of_media_wraps_to_first fs_m st_playing_b).
  - vm_compute. discriminate.
  - reflexivity.
Defined.

Lemma change_audio_device_out_of_range_witness :
  change_audio_device 5 st_playing_b = Return tt st_playing_b.
Proof.
  apply (change_audio_device_out_of_range 5 st_playing_b).
  right. vm_compute. discriminate.
Defined.

(** The paused player resumes on the new device, at five seconds. *)
Lemma change_audio_device_in_range_witness :
  exists st',
    change_audio_device 0 st_paused_b = Return tt st' /\
    last_device_desc st' = "Headphones" /\
    audio_output st' = Some "Headphones" /\
    player st_paused_b = mkPlayer (Some "/m/b.mp3") 5000 PausedState /\
    player st' = mkPlayer (Some "/m/b.mp3") 5000 PlayingState.
Proof.
  destruct (change_audio_device_in_range 0 "Headphones" st_paused_b)
    as (st' & Hrun & Hdesc & Hout & _ & _ & _ & _ & Hplayer).
  - vm_compute. discriminate.
  - reflexivity.
  - exists st'. repeat split; try assumption.
Defined.

Lemma reload_without_directory_witness :
  exists st',
    reload_current_directory_playlist fs_gone st_playing_b = Return tt st' /\
    playlist st' = playlist st_playing_b /\
    current_index st' = current_index st_playing_b /\
    current_file_path st' = Some "/m/b.mp3" /\
    player st' = player st_playing_b /\
    settings_file st' =
      Some (json_dump (SettingsStore.settings_dict (settings_of st') (geometry st'))).
Proof.
  apply (reload_without_directory fs_gone st_playing_b "/m/b.mp3");
    vm_compute; reflexivity.
Defined.

Lemma reload_when_not_playing_resets_position_witness :
  position (player st_paused_b) = 5000 /\
  exists st',
    reload_current_directory_playlist fs_m st_paused_b = Return tt st' /\
    current_file_path st' = Some "/m/b.mp3" /\
    playlist st' = ["/m/a.mp3"; "/m/b.mp3"] /\
    current_index st' = 1 /\
    player st' = mkPlayer (Some "/m/b.mp3") 0 StoppedState.
Proof.
  split; [reflexivity|].
  destruct (reload_when_not_playing_resets_position fs_m st_paused_b "/m/b.mp3")
    as (st' & Hrun & Hcur & Hlist & Hindex & _ & _ & _ & Hplayer);
    try (vm_compute; reflexivity).
  assert (Hone : current_index st' = 1).
  { rewrite Hlist in Hindex. vm_compute in Hindex. congruence. }
  exists st'. repeat split; assumption.
Defined.

Lemma reload_from_last_directory_witness :
  exists st',
    reload_current_directory_playlist fs_m st_unselected = Return tt st' /\
    playlist st' = scan fs_m (last_dir st_unselected) /\
    playlist_memory st' = scan fs_m (last_dir st_unselected) /\
    current_index st' = -1 /\
    current_file_path st' = None /\
    playbackState (player st') = StoppedState /\
    settings_file st' =
      Some (json_dump (SettingsStore.settings_dict (settings_of st') (geometry st'))).
Proof.
  apply (reload_from_last_directory fs_m st_unselected);
    vm_compute; reflexivity.
Defined.

Lemma load_settings_missing_keys_witness :
  SettingsStore.load_settings (Some "{}") settings_a =
    Return tt (SettingsStore.mkSettings (JStr "") (JStr "") (JArr []) JNull None).
Proof.
  apply (@load_settings_missing_keys Reference.toolkit "{}" [] settings_a).
  - vm_compute. reflexivity.
  - intros key _ [].
Defined.

Lemma load_settings_raises_after_partial_update_witness :
  SettingsStore.load (Some text_numeric_geometry) =
    Raise AttributeError
      (SettingsStore.mkSettings (JStr "/m") (JStr "") (JArr []) JNull None).
Proof.
  apply (@load_settings_raises_after_partial_update Reference.toolkit
           text_numeric_geometry
           [("last_dir", JStr "/m"); ("window_geometry", JNum 5)] (JNum 5)).
  - vm_compute. reflexivity.
  - reflexivity.
  - reflexivity.
  - intros b64 H. discriminate H.
Defined.

Lemma save_then_load_window_geometry_witness :
  exists s',
    SettingsStore.load_settings
      (SettingsStore.save_settings settings_a "geo" None) SettingsStore.defaults
      = Return tt s' /\
    SettingsStore.window_geometry s' = Some "geo".
Proof.
  apply (@save_then_load_window_geometry Reference.toolkit settings_a
           SettingsStore.defaults "geo" None).
  vm_compute. reflexivity.
Defined.
